(** * fs-credential-storage: the crypto codec and the file-system storage strategy

    A shallow embedding of [src/fss.ts].

    Conventions of the model.
    - A JavaScript string is a Rocq [string], a sequence of 8-bit units, and
      [s.length] is [String.length s].  A unit stands at once for a character
      of the string and for a byte of its UTF-8 encoding, as for ASCII text:
      [cipher.update(s, "utf8")] and [Buffer.toString()] move the same units
      between a string and a [Buffer], and a string key is taken by its units.
      Outside ASCII text the model is exact only in part: the cipher reads the
      units of a key as the bytes it counts, the constructor reads them as the
      characters it counts, and [Buffer.toString()] keeps bytes that are no
      UTF-8 text where Node puts U+FFFD; a property that needs a decrypted
      text to be what Node returns asks for ASCII text.
    - A [Buffer] is a [list ascii].
    - A thrown exception is the left summand of a sum type; the kind of an
      error is the place that throws it.
    - [crypto.randomBytes(16)] is an explicit argument [iv] of the function
      that draws it.
    - [crypto], [Buffer], [fs] and [String.prototype.split] are modelled by
      what they compute: AES-256 in CBC mode with PKCS#7 padding, hexadecimal
      text, a finite map from paths to nodes.  The only [fs] errors are those
      of the node at the path of the call: a missing or unfit parent
      directory, the permissions and the space of the disk are not modelled,
      so that a call may complete in the model and throw on a host.  The
      properties of the storage operations are therefore stated for calls
      that complete, never as a promise that a call completes.
    - [@tempojs/common] (the credential type, its serializer and parser) and
      [path.join] are parameters, each with an instance to run the model.
    - The host (environment variables, platform, home directory) is a record;
      the file system is threaded through a state-and-exception monad,
      together with the log of the [fs] calls.  An [async] method is the
      computation it runs to completion. *)

From Stdlib Require Import String Ascii List Bool Arith Lia Btauto.
From stdpp Require Import gmap strings.
Import ListNotations.

Local Open Scope list_scope.

(** ** Bytes *)

Abbreviation byte := ascii.

Definition xor_byte (a b : byte) : byte :=
  match a, b with
  | Ascii a0 a1 a2 a3 a4 a5 a6 a7, Ascii b0 b1 b2 b3 b4 b5 b6 b7 =>
      Ascii (xorb a0 b0) (xorb a1 b1) (xorb a2 b2) (xorb a3 b3)
            (xorb a4 b4) (xorb a5 b5) (xorb a6 b6) (xorb a7 b7)
  end.

Definition zero_byte : byte := Ascii false false false false false false false false.
Definition one_byte : byte := Ascii true false false false false false false false.

(** ** Hexadecimal text: [buf.toString("hex")] and [Buffer.from(s, "hex")] *)

Module Hex.

(** The digit of a nibble, least significant bit first; lower case, as
    Node prints it. *)
Definition digit (b0 b1 b2 b3 : bool) : ascii :=
  match b3, b2, b1, b0 with
  | false, false, false, false => "0"
  | false, false, false, true => "1"
  | false, false, true, false => "2"
  | false, false, true, true => "3"
  | false, true, false, false => "4"
  | false, true, false, true => "5"
  | false, true, true, false => "6"
  | false, true, true, true => "7"
  | true, false, false, false => "8"
  | true, false, false, true => "9"
  | true, false, true, false => "a"
  | true, false, true, true => "b"
  | true, true, false, false => "c"
  | true, true, false, true => "d"
  | true, true, true, false => "e"
  | true, true, true, true => "f"
  end%char.

(** The nibble of a digit; both cases are accepted when decoding. *)
Definition value (c : ascii) : option (bool * bool * bool * bool) :=
  match c with
  | "0" => Some (false, false, false, false)
  | "1" => Some (true, false, false, false)
  | "2" => Some (false, true, false, false)
  | "3" => Some (true, true, false, false)
  | "4" => Some (false, false, true, false)
  | "5" => Some (true, false, true, false)
  | "6" => Some (false, true, true, false)
  | "7" => Some (true, true, true, false)
  | "8" => Some (false, false, false, true)
  | "9" => Some (true, false, false, true)
  | "a" | "A" => Some (false, true, false, true)
  | "b" | "B" => Some (true, true, false, true)
  | "c" | "C" => Some (false, false, true, true)
  | "d" | "D" => Some (true, false, true, true)
  | "e" | "E" => Some (false, true, true, true)
  | "f" | "F" => Some (true, true, true, true)
  | _ => None
  end%char.

(** [buf.toString("hex")]: two digits a byte, high nibble first. *)
Fixpoint encode (buf : list byte) : string :=
  match buf with
  | [] => EmptyString
  | Ascii b0 b1 b2 b3 b4 b5 b6 b7 :: rest =>
      String (digit b4 b5 b6 b7) (String (digit b0 b1 b2 b3) (encode rest))
  end.

(** [Buffer.from(s, "hex")]: pairs of digits are decoded from the left;
    decoding stops, without an exception, at the first pair that is not
    two hexadecimal digits, and a trailing single character is dropped. *)
Fixpoint decode (s : string) : list byte :=
  match s with
  | String hi (String lo rest) =>
      match value hi, value lo with
      | Some (b4, b5, b6, b7), Some (b0, b1, b2, b3) =>
          Ascii b0 b1 b2 b3 b4 b5 b6 b7 :: decode rest
      | _, _ => []
      end
  | _ => []
  end.

End Hex.

(** ** [String.prototype.split] and [Array.prototype.join] on one character *)

Definition colon : ascii := ":"%char.

(** [s.split(sep)]: always at least one segment. *)
Fixpoint split (sep : ascii) (s : string) : list string :=
  match s with
  | EmptyString => [EmptyString]
  | String c rest =>
      if Ascii.eqb c sep then EmptyString :: split sep rest
      else match split sep rest with
           | seg :: segs => String c seg :: segs
           | [] => [String c EmptyString]
           end
  end.

(** [parts.join(sep)]. *)
Fixpoint join (sep : ascii) (parts : list string) : string :=
  match parts with
  | [] => EmptyString
  | [p] => p
  | p :: rest => p +:+ String sep (join sep rest)
  end.

(** [sep] does not occur in [s]. *)
Fixpoint free_of (sep : ascii) (s : string) : bool :=
  match s with
  | EmptyString => true
  | String c rest => negb (Ascii.eqb c sep) && free_of sep rest
  end.

(** ** AES-256: the block cipher behind [algorithm = "aes-256-cbc"]

    FIPS-197 over GF(2^8), with a byte as its eight bits. *)

Module AES.

(** Multiplication by [x] modulo [x^8 + x^4 + x^3 + x + 1]. *)
Definition xtime (a : byte) : byte :=
  match a with
  | Ascii b0 b1 b2 b3 b4 b5 b6 b7 =>
      Ascii b7 (xorb b0 b7) b1 (xorb b2 b7) (xorb b3 b7) b4 b5 b6
  end.

Definition scale (b : bool) (a : byte) : byte := if b then a else zero_byte.

(** Multiplication in GF(2^8). *)
Definition gmul (a m : byte) : byte :=
  match m with
  | Ascii m0 m1 m2 m3 m4 m5 m6 m7 =>
      let a1 := xtime a in
      let a2 := xtime a1 in
      let a3 := xtime a2 in
      let a4 := xtime a3 in
      let a5 := xtime a4 in
      let a6 := xtime a5 in
      let a7 := xtime a6 in
      xor_byte (scale m0 a) (xor_byte (scale m1 a1) (xor_byte (scale m2 a2)
        (xor_byte (scale m3 a3) (xor_byte (scale m4 a4) (xor_byte (scale m5 a5)
          (xor_byte (scale m6 a6) (scale m7 a7)))))))
  end.

(** The multiplicative inverse, [a^254], with [0] sent to [0]. *)
Definition gf_inv (a : byte) : byte :=
  let a2 := gmul a a in
  let a4 := gmul a2 a2 in
  let a8 := gmul a4 a4 in
  let a16 := gmul a8 a8 in
  let a32 := gmul a16 a16 in
  let a64 := gmul a32 a32 in
  let a128 := gmul a64 a64 in
  gmul a2 (gmul a4 (gmul a8 (gmul a16 (gmul a32 (gmul a64 a128))))).

(** The affine map of the S-box and its inverse. *)
Definition affine (a : byte) : byte :=
  match a with
  | Ascii b0 b1 b2 b3 b4 b5 b6 b7 =>
      Ascii (negb (xorb b0 (xorb b4 (xorb b5 (xorb b6 b7)))))
            (negb (xorb b1 (xorb b5 (xorb b6 (xorb b7 b0)))))
            (xorb b2 (xorb b6 (xorb b7 (xorb b0 b1))))
            (xorb b3 (xorb b7 (xorb b0 (xorb b1 b2))))
            (xorb b4 (xorb b0 (xorb b1 (xorb b2 b3))))
            (negb (xorb b5 (xorb b1 (xorb b2 (xorb b3 b4)))))
            (negb (xorb b6 (xorb b2 (xorb b3 (xorb b4 b5)))))
            (xorb b7 (xorb b3 (xorb b4 (xorb b5 b6))))
  end.

Definition inv_affine (a : byte) : byte :=
  match a with
  | Ascii b0 b1 b2 b3 b4 b5 b6 b7 =>
      Ascii (negb (xorb b2 (xorb b5 b7)))
            (xorb b3 (xorb b6 b0))
            (negb (xorb b4 (xorb b7 b1)))
            (xorb b5 (xorb b0 b2))
            (xorb b6 (xorb b1 b3))
            (xorb b7 (xorb b2 b4))
            (xorb b0 (xorb b3 b5))
            (xorb b1 (xorb b4 b6))
  end.

Definition sbox (a : byte) : byte := affine (gf_inv a).
Definition inv_sbox (a : byte) : byte := gf_inv (inv_affine a).

(** A column of the state, and the state: four columns, the input bytes
    in order. *)
Definition column : Type := byte * byte * byte * byte.
Definition block : Type := column * column * column * column.

Definition map_column (f : byte -> byte) (c : column) : column :=
  let '(a0, a1, a2, a3) := c in (f a0, f a1, f a2, f a3).

Definition xor_column (c d : column) : column :=
  let '(a0, a1, a2, a3) := c in
  let '(b0, b1, b2, b3) := d in
  (xor_byte a0 b0, xor_byte a1 b1, xor_byte a2 b2, xor_byte a3 b3).

Definition map_block (f : column -> column) (s : block) : block :=
  let '(c0, c1, c2, c3) := s in (f c0, f c1, f c2, f c3).

Definition xor_block (s k : block) : block :=
  let '(c0, c1, c2, c3) := s in
  let '(k0, k1, k2, k3) := k in
  (xor_column c0 k0, xor_column c1 k1, xor_column c2 k2, xor_column c3 k3).

Definition add_round_key (k s : block) : block := xor_block s k.

Definition sub_bytes : block -> block := map_block (map_column sbox).
Definition inv_sub_bytes : block -> block := map_block (map_column inv_sbox).

(** Row [r] of the state rotates left by [r] columns. *)
Definition shift_rows (s : block) : block :=
  let '((a0, a1, a2, a3), (b0, b1, b2, b3), (c0, c1, c2, c3), (d0, d1, d2, d3)) := s in
  ((a0, b1, c2, d3), (b0, c1, d2, a3), (c0, d1, a2, b3), (d0, a1, b2, c3)).

Definition inv_shift_rows (s : block) : block :=
  let '((a0, a1, a2, a3), (b0, b1, b2, b3), (c0, c1, c2, c3), (d0, d1, d2, d3)) := s in
  ((a0, d1, c2, b3), (b0, a1, d2, c3), (c0, b1, a2, d3), (d0, c1, b2, a3)).

Definition mul2 (a : byte) : byte := xtime a.
Definition mul3 (a : byte) : byte := xor_byte (xtime a) a.
Definition mul9 (a : byte) : byte := xor_byte (xtime (xtime (xtime a))) a.
Definition mul11 (a : byte) : byte :=
  xor_byte (xtime (xtime (xtime a))) (xor_byte (xtime a) a).
Definition mul13 (a : byte) : byte :=
  xor_byte (xtime (xtime (xtime a))) (xor_byte (xtime (xtime a)) a).
Definition mul14 (a : byte) : byte :=
  xor_byte (xtime (xtime (xtime a))) (xor_byte (xtime (xtime a)) (xtime a)).

Definition mix_column (c : column) : column :=
  let '(a0, a1, a2, a3) := c in
  (xor_byte (mul2 a0) (xor_byte (mul3 a1) (xor_byte a2 a3)),
   xor_byte a0 (xor_byte (mul2 a1) (xor_byte (mul3 a2) a3)),
   xor_byte a0 (xor_byte a1 (xor_byte (mul2 a2) (mul3 a3))),
   xor_byte (mul3 a0) (xor_byte a1 (xor_byte a2 (mul2 a3)))).

Definition inv_mix_column (c : column) : column :=
  let '(a0, a1, a2, a3) := c in
  (xor_byte (mul14 a0) (xor_byte (mul11 a1) (xor_byte (mul13 a2) (mul9 a3))),
   xor_byte (mul9 a0) (xor_byte (mul14 a1) (xor_byte (mul11 a2) (mul13 a3))),
   xor_byte (mul13 a0) (xor_byte (mul9 a1) (xor_byte (mul14 a2) (mul11 a3))),
   xor_byte (mul11 a0) (xor_byte (mul13 a1) (xor_byte (mul9 a2) (mul14 a3)))).

Definition mix_columns : block -> block := map_block mix_column.
Definition inv_mix_columns : block -> block := map_block inv_mix_column.

(** The rounds after the first key addition: every round key but the last
    closes a full round, the last one a round without [mix_columns]. *)
Fixpoint rounds (keys : list block) (s : block) : block :=
  match keys with
  | [] => s
  | [k] => add_round_key k (shift_rows (sub_bytes s))
  | k :: later => rounds later (add_round_key k (mix_columns (shift_rows (sub_bytes s))))
  end.

Fixpoint inv_rounds (keys : list block) (s : block) : block :=
  match keys with
  | [] => s
  | [k] => inv_sub_bytes (inv_shift_rows (add_round_key k s))
  | k :: later =>
      inv_sub_bytes (inv_shift_rows (inv_mix_columns (add_round_key k (inv_rounds later s))))
  end.

Definition cipher (keys : list block) (s : block) : block :=
  match keys with
  | [] => s
  | k0 :: later => rounds later (add_round_key k0 s)
  end.

Definition inv_cipher (keys : list block) (s : block) : block :=
  match keys with
  | [] => s
  | k0 :: later => add_round_key k0 (inv_rounds later s)
  end.

(** *** Key expansion for a 256-bit key ([Nk = 8], [Nr = 14]) *)

Definition rot_word (c : column) : column :=
  let '(a0, a1, a2, a3) := c in (a1, a2, a3, a0).

Definition sub_word : column -> column := map_column sbox.

Definition rcon_word (rc : byte) : column := (rc, zero_byte, zero_byte, zero_byte).

(** Eight words of the schedule from the eight before them. *)
Definition next_words (rc : byte) (prev : block * block) : block * block :=
  let '((p0, p1, p2, p3), (p4, p5, p6, p7)) := prev in
  let n0 := xor_column p0 (xor_column (sub_word (rot_word p7)) (rcon_word rc)) in
  let n1 := xor_column p1 n0 in
  let n2 := xor_column p2 n1 in
  let n3 := xor_column p3 n2 in
  let n4 := xor_column p4 (sub_word n3) in
  let n5 := xor_column p5 n4 in
  let n6 := xor_column p6 n5 in
  let n7 := xor_column p7 n6 in
  ((n0, n1, n2, n3), (n4, n5, n6, n7)).

Fixpoint expand (n : nat) (rc : byte) (prev : block * block) : list block :=
  match n with
  | 0 => []
  | S n' =>
      let next := next_words rc prev in
      fst next :: snd next :: expand n' (xtime rc) next
  end.

(** The fifteen round keys of a schedule that starts with the two halves
    of the key. *)
Definition round_keys (key : block * block) : list block :=
  firstn 15 (fst key :: snd key :: expand 7 one_byte key).

End AES.

(** ** Blocks of a [Buffer] *)

Definition bytes_of_column (c : AES.column) : list byte :=
  let '(a0, a1, a2, a3) := c in [a0; a1; a2; a3].

Definition bytes_of_block (b : AES.block) : list byte :=
  let '(c0, c1, c2, c3) := b in
  bytes_of_column c0 ++ bytes_of_column c1 ++ bytes_of_column c2 ++ bytes_of_column c3.

Definition bytes_of_blocks (bs : list AES.block) : list byte :=
  concat (map bytes_of_block bs).

(** The blocks of a buffer whose length is a multiple of 16. *)
Fixpoint blocks_of_bytes (buf : list byte) : option (list AES.block) :=
  match buf with
  | [] => Some []
  | a0 :: a1 :: a2 :: a3 :: b0 :: b1 :: b2 :: b3
      :: c0 :: c1 :: c2 :: c3 :: d0 :: d1 :: d2 :: d3 :: rest =>
      match blocks_of_bytes rest with
      | Some bs => Some (((a0, a1, a2, a3), (b0, b1, b2, b3), (c0, c1, c2, c3), (d0, d1, d2, d3)) :: bs)
      | None => None
      end
  | _ => None
  end.

(** ** Errors

    [src/fss.ts] throws plain [Error]s and lets the errors of [crypto],
    [parseCredential] and [fs] propagate; the kind of an error is the place
    that throws it. *)

(** What [crypto] throws. *)
Inductive crypto_fault : Type :=
| InvalidIv               (* createCipheriv, createDecipheriv: the IV is not 16 bytes *)
| InvalidCipherKey        (* createCipheriv, createDecipheriv: the key is not 32 bytes *)
| WrongFinalBlockLength   (* decipher.final(): no whole number of blocks, or no block *)
| BadDecrypt.             (* decipher.final(): the padding check *)

(** What [fs] throws. *)
Inductive errno : Type := ENOENT | EISDIR | EEXIST.

Inductive error : Type :=
| UnsupportedPlatform                  (* fss.ts:35 *)
| InvalidKeyLength                     (* fss.ts:99 *)
| InvalidEnvelope                      (* fss.ts:72 *)
| DecryptionFailure (why : crypto_fault)
| MalformedRecord                      (* parseCredential *)
| FsError (e : errno).

Definition result (A : Type) : Type := (error + A)%type.

#[global] Instance result_ret : MRet result := fun A x => inr x.
#[global] Instance result_bind : MBind result :=
  fun A B f m => match m with inl e => inl e | inr x => f x end.

(** ** [crypto.createCipheriv("aes-256-cbc", key, iv)] and its decipher *)

Module Cbc.

(** PKCS#7: [n] bytes of value [n], with [1 <= n <= 16], fill the last block. *)
Definition pad_length (len : nat) : nat := 16 - len mod 16.

Definition pad (data : list byte) : list byte :=
  let n := pad_length (length data) in
  data ++ repeat (ascii_of_nat n) n.

(** The padding check of [final()]: the last byte [n] lies in [1..16] and the
    last [n] bytes all equal it; [None] is "bad decrypt". *)
Definition unpad (data : list byte) : option (list byte) :=
  let n := nat_of_ascii (List.last data zero_byte) in
  if (1 <=? n) && (n <=? 16) && (n <=? length data)
     && forallb (Ascii.eqb (ascii_of_nat n)) (skipn (length data - n) data)
  then Some (firstn (length data - n) data)
  else None.

(** Cipher block chaining. *)
Fixpoint encrypt_blocks (keys : list AES.block) (chain : AES.block)
    (plain : list AES.block) : list AES.block :=
  match plain with
  | [] => []
  | p :: rest =>
      let c := AES.cipher keys (AES.xor_block p chain) in
      c :: encrypt_blocks keys c rest
  end.

Fixpoint decrypt_blocks (keys : list AES.block) (chain : AES.block)
    (crypt : list AES.block) : list AES.block :=
  match crypt with
  | [] => []
  | c :: rest =>
      AES.xor_block (AES.inv_cipher keys c) chain :: decrypt_blocks keys c rest
  end.

(** A cipher or decipher object: the round keys and the IV. *)
Record context : Type := { round_keys : list AES.block; chain0 : AES.block }.

(** [createCipheriv] and [createDecipheriv]: a string key is taken by its
    bytes; the IV must have 16 bytes and the key 32. *)
Definition create (key : string) (iv : list byte) : crypto_fault + context :=
  match blocks_of_bytes iv with
  | Some [v] =>
      match blocks_of_bytes (list_ascii_of_string key) with
      | Some [k0; k1] => inr {| round_keys := AES.round_keys (k0, k1); chain0 := v |}
      | _ => inl InvalidCipherKey
      end
  | _ => inl InvalidIv
  end.

(** [cipher.update(data)] followed by [cipher.final()], concatenated. *)
Definition cipher_update_final (c : context) (data : list byte) : list byte :=
  match blocks_of_bytes (pad data) with
  | Some plain => bytes_of_blocks (encrypt_blocks (round_keys c) (chain0 c) plain)
  | None => []
  end.

(** [Buffer.concat([decipher.update(data), decipher.final()])]. *)
Definition decipher_update_final (c : context) (data : list byte)
    : crypto_fault + list byte :=
  match blocks_of_bytes data with
  | None | Some [] => inl WrongFinalBlockLength
  | Some crypt =>
      match unpad (bytes_of_blocks (decrypt_blocks (round_keys c) (chain0 c) crypt)) with
      | Some plain => inr plain
      | None => inl BadDecrypt
      end
  end.

End Cbc.

(** [crypto] errors surface as [DecryptionFailure]. *)
Definition crypto {A : Type} (r : crypto_fault + A) : result A :=
  match r with inl f => inl (DecryptionFailure f) | inr x => inr x end.

(** ** The collaborators imported by [src/fss.ts] *)

(** [@tempojs/common]: the credential record with its serializer and parser.
    [parseCredential] throws on text it cannot parse: [None]. *)
Class CredentialModule (Credential : Type) : Type := {
  stringifyCredential : Credential -> string;
  parseCredential : string -> option Credential
}.

(** [path]: [path.join(...segments)] of the host platform. *)
Class PathModule : Type := { path_join : list string -> string }.

(** [process.env], [os.platform()] and [os.homedir()]. *)
Record host : Type := {
  env : gmap string string;
  platform : string;
  homedir : string
}.

(** A value of type [string | undefined] in a condition. *)
Definition truthy (v : option string) : bool :=
  match v with
  | Some (String _ _) => true
  | _ => false
  end.

(** ** The crypto codec *)

Section Codec.
Context {Credential : Type} `{CredentialModule Credential}.

Definition parse (text : string) : result Credential :=
  match parseCredential text with
  | Some c => inr c
  | None => inl MalformedRecord
  end.

(** [encryptCredential], given the [iv] that [crypto.randomBytes(16)] returns. *)
Definition encryptCredential (iv : list byte) (credential : Credential)
    (encryptionKey : string) : result string :=
  let serialized := stringifyCredential credential in
  cipher ← crypto (Cbc.create encryptionKey iv);
  let encrypted := Hex.encode (Cbc.cipher_update_final cipher (list_ascii_of_string serialized)) in
  mret (Hex.encode iv +:+ String colon encrypted).

Definition decryptCredential (encrypted : string) (encryptionKey : string)
    : result Credential :=
  let textParts := split colon encrypted in
  if length textParts <? 2 then inl InvalidEnvelope
  else
    match textParts with
    | [] => inl InvalidEnvelope
    | first :: textParts =>
        let iv := Hex.decode first in
        let encryptedText := Hex.decode (join colon textParts) in
        decipher ← crypto (Cbc.create encryptionKey iv);
        decrypted ← crypto (Cbc.decipher_update_final decipher encryptedText);
        parse (string_of_list_ascii decrypted)
    end.

End Codec.

(** ** The file system and the [fs] calls *)

Inductive node : Type :=
| Dir
| File (content : string).

Inductive fs_call : Type :=
| ExistsSync (p : string)
| MkdirSync (p : string)
| ReadFile (p : string)
| WriteFile (p : string) (content : string)
| Unlink (p : string).

(** The world an operation runs in: the nodes of the file system by path,
    and the [fs] calls made so far, the latest first. *)
Record world : Type := {
  fs : gmap string node;
  calls : list fs_call
}.

(** A computation that may read and change the world and may throw; the
    world survives an exception. *)
Definition io (A : Type) : Type := world -> result A * world.

#[global] Instance io_ret : MRet io := fun A x w => (inr x, w).
#[global] Instance io_bind : MBind io :=
  fun A B f m w =>
    match m w with
    | (inl e, w') => (inl e, w')
    | (inr x, w') => f x w'
    end.

Definition throw {A : Type} (e : error) : io A := fun w => (inl e, w).

Definition lift {A : Type} (r : result A) : io A := fun w => (r, w).

Definition called (c : fs_call) (w : world) : world :=
  {| fs := fs w; calls := c :: calls w |}.

Definition existsSync (p : string) : io bool :=
  fun w => (inr (bool_decide (is_Some (fs w !! p))), called (ExistsSync p) w).

(** [fs.mkdirSync(p, { recursive: true })]: an existing directory is left as
    it is, a file in the way is an error. *)
Definition mkdirSync (p : string) : io unit :=
  fun w =>
    match fs w !! p with
    | Some (File _) => (inl (FsError EEXIST), called (MkdirSync p) w)
    | _ => (inr tt, {| fs := <[p := Dir]> (fs w); calls := MkdirSync p :: calls w |})
    end.

(** [fs.promises.readFile(p, "utf-8")]. *)
Definition readFile (p : string) : io string :=
  fun w =>
    (match fs w !! p with
     | Some (File content) => inr content
     | Some Dir => inl (FsError EISDIR)
     | None => inl (FsError ENOENT)
     end, called (ReadFile p) w).

(** [fs.promises.writeFile(p, content, "utf-8")]: the file is created or
    replaced as a whole.  The parent directory is not looked at: where the
    host throws for a missing parent or for a regular file in its place, the
    model completes. *)
Definition writeFile (p : string) (content : string) : io unit :=
  fun w =>
    match fs w !! p with
    | Some Dir => (inl (FsError EISDIR), called (WriteFile p content) w)
    | _ => (inr tt, {| fs := <[p := File content]> (fs w);
                       calls := WriteFile p content :: calls w |})
    end.

(** [fs.promises.unlink(p)]. *)
Definition unlink (p : string) : io unit :=
  fun w =>
    match fs w !! p with
    | Some (File _) => (inr tt, {| fs := delete p (fs w); calls := Unlink p :: calls w |})
    | Some Dir => (inl (FsError EISDIR), called (Unlink p) w)
    | None => (inl (FsError ENOENT), called (Unlink p) w)
    end.

(** ** The path resolver *)

Section Storage.
Context {Credential : Type} `{CredentialModule Credential} `{PathModule}.

(** [appDataDir(namespace)] on host [h]. *)
Definition appDataDir (h : host) (namespace : string) : result string :=
  if truthy (env h !! "APP_DATA_DIR_OVERRIDE") then
    inr (path_join [default EmptyString (env h !! "APP_DATA_DIR_OVERRIDE"); namespace])
  else
    appDataDir ←
      (if String.eqb (platform h) "win32" then
         inr (if truthy (env h !! "APPDATA")
              then default EmptyString (env h !! "APPDATA")
              else path_join [homedir h; "AppData"; "Local"])
       else if String.eqb (platform h) "darwin" then
         inr (path_join [homedir h; "Library"; "Application Support"])
       else if String.eqb (platform h) "linux" then
         inr "/var"
       else
         inl UnsupportedPlatform);
    mret (path_join [appDataDir; namespace]).

(** ** The storage strategy *)

(** An instance of [FileSystemStorageStrategy]: its two private fields. *)
Record FileSystemStorageStrategy : Type := {
  this_appDataDir : string;
  this_encryptionKey : option string
}.

(** The constructor, [new FileSystemStorageStrategy(namespace, encryptionKey)]. *)
Definition constructor (h : host) (namespace : string) (encryptionKey : option string)
    : io FileSystemStorageStrategy :=
  if truthy encryptionKey
     && negb (String.length (default EmptyString encryptionKey) =? 32)
  then throw InvalidKeyLength
  else
    dir ← lift (appDataDir h namespace);
    present ← existsSync dir;
    (if negb present then mkdirSync dir else mret tt);;
    mret {| this_appDataDir := dir; this_encryptionKey := encryptionKey |}.

(** [getCredential(key)]: [None] is [undefined]. *)
Definition getCredential (this : FileSystemStorageStrategy) (key : string)
    : io (option Credential) :=
  let credentialPath := path_join [this_appDataDir this; key] in
  present ← existsSync credentialPath;
  if negb present then mret None
  else
    file ← readFile credentialPath;
    credential ← lift (if truthy (this_encryptionKey this)
                       then decryptCredential file (default EmptyString (this_encryptionKey this))
                       else parse file);
    mret (Some credential).

(** [storeCredential(key, credential)]; [iv] is what [crypto.randomBytes(16)]
    returns if [encryptCredential] is called. *)
Definition storeCredential (iv : list byte) (this : FileSystemStorageStrategy)
    (key : string) (credential : Credential) : io unit :=
  serialized ← lift (if truthy (this_encryptionKey this)
                     then encryptCredential iv credential
                            (default EmptyString (this_encryptionKey this))
                     else inr (stringifyCredential credential));
  writeFile (path_join [this_appDataDir this; key]) serialized.

(** [removeCredential(key)]. *)
Definition removeCredential (this : FileSystemStorageStrategy) (key : string)
    : io unit :=
  let credentialPath := path_join [this_appDataDir this; key] in
  present ← existsSync credentialPath;
  if present : bool then unlink credentialPath else mret tt.

End Storage.

(** ** Instances of the collaborators, to run the model

    A credential with the two fields [id] and [token], serialized as the JSON
    text of the object when no field holds a quote or an escape; and
    [path.posix.join]. *)

Record IdToken : Type := { cred_id : string; cred_token : string }.

Definition dquote : ascii := "034"%char.

Definition quoted (s : string) : string :=
  String dquote (s +:+ String dquote EmptyString).

Definition json_of_IdToken (c : IdToken) : string :=
  "{" +:+ quoted "id" +:+ ":" +:+ quoted (cred_id c) +:+ ","
      +:+ quoted "token" +:+ ":" +:+ quoted (cred_token c) +:+ "}".

Fixpoint strip_prefix (pre s : string) : option string :=
  match pre, s with
  | EmptyString, _ => Some s
  | String a pre', String b s' => if Ascii.eqb a b then strip_prefix pre' s' else None
  | String _ _, EmptyString => None
  end.

(** The text up to the first quote, and the text after that quote. *)
Fixpoint until_quote (s : string) : option (string * string) :=
  match s with
  | EmptyString => None
  | String c rest =>
      if Ascii.eqb c dquote then Some (EmptyString, rest)
      else match until_quote rest with
           | Some (text, after) => Some (String c text, after)
           | None => None
           end
  end.

Definition IdToken_of_json (s : string) : option IdToken :=
  s ← strip_prefix ("{" +:+ quoted "id" +:+ ":" +:+ String dquote EmptyString) s;
  '(id, s) ← until_quote s;
  s ← strip_prefix ("," +:+ quoted "token" +:+ ":" +:+ String dquote EmptyString) s;
  '(token, s) ← until_quote s;
  if String.eqb s "}" then Some {| cred_id := id; cred_token := token |} else None.

#[local] Instance IdToken_module : CredentialModule IdToken :=
  {| stringifyCredential := json_of_IdToken; parseCredential := IdToken_of_json |}.

Definition slash : ascii := "/"%char.

(** The segments of a path without [.] and empty segments, a [..] taking
    back the segment before it; [above] keeps a leading [..]. *)
Fixpoint normalize_segments (above : bool) (done todo : list string) : list string :=
  match todo with
  | [] => rev done
  | seg :: todo' =>
      if String.eqb seg EmptyString || String.eqb seg "." then
        normalize_segments above done todo'
      else if String.eqb seg ".." then
        match done with
        | top :: done' =>
            if String.eqb top ".." then normalize_segments above (seg :: done) todo'
            else normalize_segments above done' todo'
        | [] =>
            if above then normalize_segments above [seg] todo'
            else normalize_segments above [] todo'
        end
      else normalize_segments above (seg :: done) todo'
  end.

Definition ends_with_slash (p : string) : bool :=
  match rev (list_ascii_of_string p) with
  | c :: _ => Ascii.eqb c slash
  | [] => false
  end.

Definition posix_normalize (p : string) : string :=
  match p with
  | EmptyString => "."
  | String c _ =>
      let isAbsolute := Ascii.eqb c slash in
      let trailingSeparator := ends_with_slash p in
      let body := join slash (normalize_segments (negb isAbsolute) [] (split slash p)) in
      match body with
      | EmptyString => if isAbsolute then "/" else if trailingSeparator then "./" else "."
      | _ =>
          let body := if trailingSeparator then body +:+ "/" else body in
          if isAbsolute then String slash body else body
      end
  end.

Definition posix_join (segments : list string) : string :=
  match filter (fun s => negb (String.eqb s EmptyString)) segments with
  | [] => "."
  | parts => posix_normalize (join slash parts)
  end.

#[local] Instance posix_path : PathModule := {| path_join := posix_join |}.

(** The values of the repository's tests. *)
Definition testCredential : IdToken := {| cred_id := "1"; cred_token := "test-token" |}.
Definition testKey : string := "12345678901234567890123456789012".
Definition testIv : list byte := Hex.decode "000102030405060708090a0b0c0d0e0f".
Definition testHost : host :=
  {| env := {[ "APP_DATA_DIR_OVERRIDE" := "/var" ]}; platform := "linux"; homedir := "/root" |}.
Definition emptyWorld : world := {| fs := ∅; calls := [] |}.

(** The envelope of [testCredential] under [testKey] and [testIv], and the
    same with the first byte of its ciphertext changed from [43] to [42]. *)
Definition testEnvelope : string :=
  "000102030405060708090a0b0c0d0e0f:437eb1c0cfb41eb5da9d5ccf8eaf2026fc0865b788b7f54fa3fa72fa062eb09e".
Definition tamperedEnvelope : string :=
  "000102030405060708090a0b0c0d0e0f:427eb1c0cfb41eb5da9d5ccf8eaf2026fc0865b788b7f54fa3fa72fa062eb09e".

(** A host of a platform [appDataDir] does not know, with no override. *)
Definition unsupportedHost : host :=
  {| env := ∅; platform := "freebsd"; homedir := "/root" |}.

(** A host whose override variable is set to the empty string. *)
Definition emptyOverrideHost : host :=
  {| env := {[ "APP_DATA_DIR_OVERRIDE" := EmptyString ]};
     platform := "linux"; homedir := "/root" |}.

(** The instance of the tests, without and with the key, and the world
    after its construction. *)
Definition plainStrategy : FileSystemStorageStrategy :=
  {| this_appDataDir := "/var/namespace"; this_encryptionKey := None |}.
Definition keyedStrategy : FileSystemStorageStrategy :=
  {| this_appDataDir := "/var/namespace"; this_encryptionKey := Some testKey |}.
Definition namespaceWorld : world :=
  {| fs := {[ "/var/namespace" := Dir ]};
     calls := [MkdirSync "/var/namespace"; ExistsSync "/var/namespace"] |}.

(** The worlds of the lifecycle of the tests: after the store of the keyed
    instance that follows a first [getCredential], after the remove that
    follows a second one; and the world after the store of the keyless
    instance. *)
Definition lifecycleStoredWorld : world :=
  snd (storeCredential testIv keyedStrategy "credential.json" testCredential
         (snd (getCredential (Credential := IdToken) keyedStrategy "credential.json"
                 namespaceWorld))).
Definition lifecycleRemovedWorld : world :=
  snd (removeCredential keyedStrategy "credential.json"
         (snd (getCredential (Credential := IdToken) keyedStrategy "credential.json"
                 lifecycleStoredWorld))).
Definition plainStoredWorld : world :=
  snd (storeCredential testIv plainStrategy "credential.json" testCredential namespaceWorld).

(** ** Notions the properties are stated with *)

(** A valid record: parsing its serialization gives it back. *)
Definition valid_credential {Credential : Type} `{CredentialModule Credential}
    (r : Credential) : Prop :=
  parseCredential (stringifyCredential r) = Some r.

(** The ciphertext portion of an envelope, as [decryptCredential] reads it. *)
Definition ciphertext_of (envelope : string) : list byte :=
  Hex.decode (join colon (tail (split colon envelope))).

(** Byte [i] of a buffer changed by a mask. *)
Definition flip (i : nat) (mask : byte) (buf : list byte) : list byte :=
  alter (fun b => xor_byte b mask) i buf.

(** An envelope with byte [i] of its ciphertext portion flipped. *)
Definition tamper (i : nat) (mask : byte) (envelope : string) : string :=
  match split colon envelope with
  | first :: rest =>
      first +:+ String colon (Hex.encode (flip i mask (Hex.decode (join colon rest))))
  | [] => envelope
  end.

(** Tampering with byte [i] of the envelope of [r] is answered by a
    [DecryptionFailure]. *)
Definition rejects_tampering {Credential : Type} `{CredentialModule Credential}
    (r : Credential) (k : string) (iv : list byte) (i : nat) (mask : byte) : Prop :=
  forall envelope, encryptCredential iv r k = inr envelope ->
    exists why, decryptCredential (tamper i mask envelope) k = inl (DecryptionFailure why).

(** What [decryptCredential] does with an IV and a ciphertext once the
    envelope is taken apart. *)
Definition open_envelope {Credential : Type} `{CredentialModule Credential}
    (iv encryptedText : list byte) (encryptionKey : string) : result Credential :=
  decipher ← crypto (Cbc.create encryptionKey iv);
  decrypted ← crypto (Cbc.decipher_update_final decipher encryptedText);
  parse (string_of_list_ascii decrypted).

(** The text a strategy writes for a record and the record it reads from a
    text: the conditionals of [storeCredential] and [getCredential]. *)
Definition to_file {Credential : Type} `{CredentialModule Credential}
    (iv : list byte) (this : FileSystemStorageStrategy) (credential : Credential)
    : result string :=
  if truthy (this_encryptionKey this)
  then encryptCredential iv credential (default EmptyString (this_encryptionKey this))
  else inr (stringifyCredential credential).

Definition of_file {Credential : Type} `{CredentialModule Credential}
    (this : FileSystemStorageStrategy) (file : string) : result Credential :=
  if truthy (this_encryptionKey this)
  then decryptCredential file (default EmptyString (this_encryptionKey this))
  else parse file.

(** ** Notions the further properties are stated with *)

(** Every character of a string passes a test. *)
Fixpoint all_chars (test : ascii -> bool) (s : string) : bool :=
  match s with
  | EmptyString => true
  | String c rest => test c && all_chars test rest
  end.

(** A character an envelope is written with: a lower-case hexadecimal digit
    or the colon. *)
Definition envelope_char (c : ascii) : bool :=
  Ascii.eqb c colon
  || match Hex.value c with
     | Some (b0, b1, b2, b3) => Ascii.eqb (Hex.digit b0 b1 b2 b3) c
     | None => false
     end.

(** The letters of the hexadecimal digits in upper case. *)
Definition upper_digit (c : ascii) : ascii :=
  match c with
  | "f" => "F"
  | "e" => "E"
  | "d" => "D"
  | "c" => "C"
  | "b" => "B"
  | "a" => "A"
  | other => other
  end%char.

Fixpoint upper_hex (s : string) : string :=
  match s with
  | EmptyString => EmptyString
  | String c rest => String (upper_digit c) (upper_hex rest)
  end.

(** A unit of ASCII text: a byte below 128, which [Buffer.toString()] gives
    back as the same unit of the string. *)
Definition seven_bit (c : ascii) : bool :=
  match c with
  | Ascii _ _ _ _ _ _ _ b7 => negb b7
  end.

(** An envelope with byte [j] of its IV flipped. *)
Definition tamper_iv (j : nat) (mask : byte) (envelope : string) : string :=
  match split colon envelope with
  | first :: rest =>
      Hex.encode (flip j mask (Hex.decode first)) +:+ String colon (join colon rest)
  | [] => envelope
  end.

(** Further values to run the model on: a mask of two bits, the test
    credential with another identifier, a line end, a world with a regular
    file at the path of the directory, and the worlds after one and after two
    calls of [storeCredential] of the keyed instance. *)
Definition mask3 : byte := "003"%char.
Definition otherCredential : IdToken := {| cred_id := "2"; cred_token := "test-token" |}.
Definition lineEnd : string := String "010"%char EmptyString.
Definition occupiedWorld : world :=
  {| fs := {[ "/var/namespace" := File "not a directory" ]}; calls := [] |}.
Definition storedOnceWorld : world :=
  snd (storeCredential testIv keyedStrategy "credential.json" otherCredential namespaceWorld).
Definition storedTwiceWorld : world :=
  snd (storeCredential (repeat zero_byte 16) keyedStrategy "credential.json" testCredential
         storedOnceWorld).

(** * Properties *)

(** ** Bytes and hexadecimal text *)

Lemma xorb_cancel_r (x y : bool) : xorb (xorb x y) y = x.
Proof. destruct x, y; reflexivity. Qed.

Lemma xor_byte_cancel_r (a b : byte) : xor_byte (xor_byte a b) b = a.
Proof. destruct a, b; cbn; rewrite !xorb_cancel_r; reflexivity. Qed.

Lemma xor_byte_inj_r (a m : byte) : xor_byte a m = a -> m = zero_byte.
Proof.
  destruct a as [a0 a1 a2 a3 a4 a5 a6 a7], m as [m0 m1 m2 m3 m4 m5 m6 m7]; cbn.
  intros E; injection E; clear E; intros.
  repeat match goal with
         | E : xorb ?x ?y = ?x |- _ =>
             assert (y = false) by (destruct x, y; (reflexivity || discriminate E));
             clear E; subst y
         end.
  reflexivity.
Qed.

Lemma hex_value_digit (b0 b1 b2 b3 : bool) :
  Hex.value (Hex.digit b0 b1 b2 b3) = Some (b0, b1, b2, b3).
Proof. destruct b0, b1, b2, b3; reflexivity. Qed.

Lemma hex_digit_not_colon (b0 b1 b2 b3 : bool) :
  Ascii.eqb (Hex.digit b0 b1 b2 b3) colon = false.
Proof. destruct b0, b1, b2, b3; reflexivity. Qed.

(** [Buffer.from(buf.toString("hex"), "hex")] is [buf]. *)
Lemma hex_decode_encode (buf : list byte) : Hex.decode (Hex.encode buf) = buf.
Proof.
  induction buf as [|[b0 b1 b2 b3 b4 b5 b6 b7] rest IH]; [reflexivity|].
  cbn [Hex.encode Hex.decode]. rewrite !hex_value_digit, IH. reflexivity.
Qed.

Lemma hex_encode_inj (a b : list byte) : Hex.encode a = Hex.encode b -> a = b.
Proof.
  intros E. rewrite <- (hex_decode_encode a), <- (hex_decode_encode b), E. reflexivity.
Qed.

Lemma hex_encode_free_of_colon (buf : list byte) : free_of colon (Hex.encode buf) = true.
Proof.
  induction buf as [|[b0 b1 b2 b3 b4 b5 b6 b7] rest IH]; [reflexivity|].
  cbn [Hex.encode free_of]. rewrite !hex_digit_not_colon, IH. reflexivity.
Qed.

Lemma hex_encode_length (buf : list byte) :
  String.length (Hex.encode buf) = 2 * length buf.
Proof.
  induction buf as [|[b0 b1 b2 b3 b4 b5 b6 b7] rest IH]; [reflexivity|].
  cbn [Hex.encode String.length length]. rewrite IH. lia.
Qed.

(** ** Splitting and joining *)

Lemma append_empty_l (s : string) : EmptyString +:+ s = s.
Proof. reflexivity. Qed.

Lemma append_String (c : ascii) (a b : string) : String c a +:+ b = String c (a +:+ b).
Proof. reflexivity. Qed.

Lemma split_nonempty (sep : ascii) (s : string) : split sep s <> [].
Proof.
  destruct s as [|c rest]; cbn; [discriminate|].
  destruct (Ascii.eqb c sep); [discriminate|].
  destruct (split sep rest); discriminate.
Qed.

Lemma split_free (sep : ascii) (s : string) :
  free_of sep s = true -> split sep s = [s].
Proof.
  induction s as [|c rest IH]; cbn; [reflexivity|].
  destruct (Ascii.eqb c sep); cbn; [discriminate|].
  intros F. rewrite (IH F). reflexivity.
Qed.

Lemma split_segments (sep : ascii) (a b : string) :
  free_of sep a = true -> split sep (a +:+ String sep b) = a :: split sep b.
Proof.
  induction a as [|c rest IH]; cbn [free_of].
  - rewrite append_empty_l. cbn. rewrite Ascii.eqb_refl. reflexivity.
  - rewrite append_String. cbn [split].
    destruct (Ascii.eqb c sep); cbn; [discriminate|].
    intros F. rewrite (IH F). reflexivity.
Qed.

Lemma split_more (sep : ascii) (s : string) :
  free_of sep s = false ->
  exists a b, s = a +:+ String sep b /\ free_of sep a = true.
Proof.
  induction s as [|c rest IH]; cbn; [discriminate|].
  destruct (Ascii.eqb c sep) eqn:E; cbn.
  - intros _. apply Ascii.eqb_eq in E. subst c.
    exists EmptyString, rest. split; reflexivity.
  - intros F. destruct (IH F) as (a & b & -> & Fa).
    exists (String c a), b. split; [reflexivity|]. cbn. rewrite E, Fa. reflexivity.
Qed.

Lemma free_of_segments (sep : ascii) (a b : string) :
  free_of sep (a +:+ String sep b) = false.
Proof.
  induction a as [|c a IH].
  - rewrite append_empty_l. cbn [free_of]. rewrite Ascii.eqb_refl. reflexivity.
  - rewrite append_String. cbn [free_of]. rewrite IH. apply andb_false_r.
Qed.

Lemma join_split (sep : ascii) (s : string) : join sep (split sep s) = s.
Proof.
  induction s as [|c rest IH]; [reflexivity|].
  cbn [split]. destruct (Ascii.eqb c sep) eqn:E.
  - apply Ascii.eqb_eq in E. subst c.
    pose proof (split_nonempty sep rest) as N.
    cbn [join]. destruct (split sep rest) as [|seg segs]; [congruence|].
    rewrite IH. reflexivity.
  - pose proof (split_nonempty sep rest) as N.
    destruct (split sep rest) as [|seg segs]; [congruence|].
    destruct segs as [|seg' segs]; cbn [join] in *.
    + rewrite IH. reflexivity.
    + rewrite <- IH. reflexivity.
Qed.

Lemma split_short (sep : ascii) (s : string) :
  (length (split sep s) <? 2) = free_of sep s.
Proof.
  destruct (free_of sep s) eqn:F.
  - rewrite (split_free _ _ F). reflexivity.
  - destruct (split_more _ _ F) as (a & b & -> & Fa).
    rewrite (split_segments _ _ _ Fa).
    pose proof (split_nonempty sep b). destruct (split sep b); [congruence|reflexivity].
Qed.

(** ** AES: every step of the cipher has its inverse *)

(** FIPS-197, appendix C.3. *)
Example aes256_fips197_c3 :
  match blocks_of_bytes (Hex.decode "000102030405060708090a0b0c0d0e0f101112131415161718191a1b1c1d1e1f"),
        blocks_of_bytes (Hex.decode "00112233445566778899aabbccddeeff") with
  | Some [k0; k1], Some [p] =>
      Hex.encode (bytes_of_block (AES.cipher (AES.round_keys (k0, k1)) p))
  | _, _ => EmptyString
  end = "8ea2b7ca516745bfeafc49904b496089".
Proof. vm_compute. reflexivity. Qed.

Lemma inv_sbox_sbox (a : byte) : AES.inv_sbox (AES.sbox a) = a.
Proof. destruct a as [[] [] [] [] [] [] [] []]; vm_compute; reflexivity. Qed.

Lemma sbox_inv_sbox (a : byte) : AES.sbox (AES.inv_sbox a) = a.
Proof. destruct a as [[] [] [] [] [] [] [] []]; vm_compute; reflexivity. Qed.

Lemma inv_sub_bytes_sub_bytes (s : AES.block) : AES.inv_sub_bytes (AES.sub_bytes s) = s.
Proof.
  destruct s as [[[[[[a0 a1] a2] a3] [[[b0 b1] b2] b3]] [[[c0 c1] c2] c3]] [[[d0 d1] d2] d3]].
  cbn. rewrite !inv_sbox_sbox. reflexivity.
Qed.

Lemma sub_bytes_inv_sub_bytes (s : AES.block) : AES.sub_bytes (AES.inv_sub_bytes s) = s.
Proof.
  destruct s as [[[[[[a0 a1] a2] a3] [[[b0 b1] b2] b3]] [[[c0 c1] c2] c3]] [[[d0 d1] d2] d3]].
  cbn. rewrite !sbox_inv_sbox. reflexivity.
Qed.

Lemma inv_shift_rows_shift_rows (s : AES.block) : AES.inv_shift_rows (AES.shift_rows s) = s.
Proof.
  destruct s as [[[[[[a0 a1] a2] a3] [[[b0 b1] b2] b3]] [[[c0 c1] c2] c3]] [[[d0 d1] d2] d3]].
  reflexivity.
Qed.

Lemma shift_rows_inv_shift_rows (s : AES.block) : AES.shift_rows (AES.inv_shift_rows s) = s.
Proof.
  destruct s as [[[[[[a0 a1] a2] a3] [[[b0 b1] b2] b3]] [[[c0 c1] c2] c3]] [[[d0 d1] d2] d3]].
  reflexivity.
Qed.

Ltac bits_of_column c :=
  let a0 := fresh "a" in let a1 := fresh "a" in let a2 := fresh "a" in let a3 := fresh "a" in
  destruct c as [[[a0 a1] a2] a3]; destruct a0, a1, a2, a3.

Lemma inv_mix_column_mix_column (c : AES.column) : AES.inv_mix_column (AES.mix_column c) = c.
Proof.
  bits_of_column c.
  cbv [AES.inv_mix_column AES.mix_column AES.mul2 AES.mul3 AES.mul9 AES.mul11
       AES.mul13 AES.mul14 AES.xtime xor_byte].
  repeat f_equal; btauto.
Qed.

Lemma mix_column_inv_mix_column (c : AES.column) : AES.mix_column (AES.inv_mix_column c) = c.
Proof.
  bits_of_column c.
  cbv [AES.inv_mix_column AES.mix_column AES.mul2 AES.mul3 AES.mul9 AES.mul11
       AES.mul13 AES.mul14 AES.xtime xor_byte].
  repeat f_equal; btauto.
Qed.

Lemma inv_mix_columns_mix_columns (s : AES.block) :
  AES.inv_mix_columns (AES.mix_columns s) = s.
Proof.
  destruct s as [[[c0 c1] c2] c3]. cbn.
  rewrite !inv_mix_column_mix_column. reflexivity.
Qed.

Lemma mix_columns_inv_mix_columns (s : AES.block) :
  AES.mix_columns (AES.inv_mix_columns s) = s.
Proof.
  destruct s as [[[c0 c1] c2] c3]. cbn.
  rewrite !mix_column_inv_mix_column. reflexivity.
Qed.

Lemma xor_column_cancel_r (c k : AES.column) : AES.xor_column (AES.xor_column c k) k = c.
Proof.
  destruct c as [[[a0 a1] a2] a3], k as [[[k0 k1] k2] k3]. cbn.
  rewrite !xor_byte_cancel_r. reflexivity.
Qed.

Lemma xor_block_cancel_r (s k : AES.block) : AES.xor_block (AES.xor_block s k) k = s.
Proof.
  destruct s as [[[c0 c1] c2] c3], k as [[[k0 k1] k2] k3]. cbn.
  rewrite !xor_column_cancel_r. reflexivity.
Qed.

Lemma add_round_key_twice (k s : AES.block) : AES.add_round_key k (AES.add_round_key k s) = s.
Proof. apply xor_block_cancel_r. Qed.

Create Rewrite HintDb aes.

#[local] Hint Rewrite inv_sub_bytes_sub_bytes sub_bytes_inv_sub_bytes
  inv_shift_rows_shift_rows shift_rows_inv_shift_rows
  inv_mix_columns_mix_columns mix_columns_inv_mix_columns
  add_round_key_twice : aes.

Lemma inv_rounds_rounds (keys : list AES.block) (s : AES.block) :
  AES.inv_rounds keys (AES.rounds keys s) = s.
Proof.
  revert s. induction keys as [|k later IH]; intros s; [reflexivity|].
  destruct later as [|k' later].
  - cbn. autorewrite with aes. reflexivity.
  - change (AES.inv_sub_bytes (AES.inv_shift_rows (AES.inv_mix_columns (AES.add_round_key k
      (AES.inv_rounds (k' :: later) (AES.rounds (k' :: later)
        (AES.add_round_key k (AES.mix_columns (AES.shift_rows (AES.sub_bytes s))))))))) = s).
    rewrite IH. autorewrite with aes. reflexivity.
Qed.

Lemma rounds_inv_rounds (keys : list AES.block) (s : AES.block) :
  AES.rounds keys (AES.inv_rounds keys s) = s.
Proof.
  revert s. induction keys as [|k later IH]; intros s; [reflexivity|].
  destruct later as [|k' later].
  - cbn. autorewrite with aes. reflexivity.
  - change (AES.rounds (k' :: later) (AES.add_round_key k (AES.mix_columns (AES.shift_rows
      (AES.sub_bytes (AES.inv_sub_bytes (AES.inv_shift_rows (AES.inv_mix_columns
        (AES.add_round_key k (AES.inv_rounds (k' :: later) s)))))))))  = s).
    autorewrite with aes. apply IH.
Qed.

(** The inverse cipher undoes the cipher, under any round keys. *)
Lemma inv_cipher_cipher (keys : list AES.block) (s : AES.block) :
  AES.inv_cipher keys (AES.cipher keys s) = s.
Proof.
  destruct keys as [|k0 later]; [reflexivity|].
  cbn [AES.cipher AES.inv_cipher]. rewrite inv_rounds_rounds. apply add_round_key_twice.
Qed.

Lemma cipher_inv_cipher (keys : list AES.block) (s : AES.block) :
  AES.cipher keys (AES.inv_cipher keys s) = s.
Proof.
  destruct keys as [|k0 later]; [reflexivity|].
  cbn [AES.cipher AES.inv_cipher]. rewrite add_round_key_twice. apply rounds_inv_rounds.
Qed.

(** ** Buffers and blocks *)

Lemma bytes_of_block_length (b : AES.block) : length (bytes_of_block b) = 16.
Proof.
  destruct b as [[[[[[a0 a1] a2] a3] [[[b0 b1] b2] b3]] [[[c0 c1] c2] c3]] [[[d0 d1] d2] d3]].
  reflexivity.
Qed.

Lemma bytes_of_blocks_length (bs : list AES.block) :
  length (bytes_of_blocks bs) = 16 * length bs.
Proof.
  induction bs as [|b bs IH]; [reflexivity|].
  unfold bytes_of_blocks in *. cbn [map concat length].
  rewrite length_app, bytes_of_block_length, IH. lia.
Qed.

Lemma blocks_of_bytes_cons (b : AES.block) (rest : list byte) :
  blocks_of_bytes (bytes_of_block b ++ rest)
  = match blocks_of_bytes rest with Some bs => Some (b :: bs) | None => None end.
Proof.
  destruct b as [[[[[[a0 a1] a2] a3] [[[b0 b1] b2] b3]] [[[c0 c1] c2] c3]] [[[d0 d1] d2] d3]].
  reflexivity.
Qed.

Lemma blocks_of_bytes_of_blocks (bs : list AES.block) :
  blocks_of_bytes (bytes_of_blocks bs) = Some bs.
Proof.
  induction bs as [|b bs IH]; [reflexivity|].
  unfold bytes_of_blocks in *. cbn [map concat].
  rewrite blocks_of_bytes_cons, IH. reflexivity.
Qed.

Lemma blocks_of_bytes_some (buf : list byte) (bs : list AES.block) :
  blocks_of_bytes buf = Some bs -> buf = bytes_of_blocks bs.
Proof.
  remember (length buf) as n eqn:Len. revert buf bs Len.
  induction n as [n IH] using lt_wf_ind. intros buf bs Len E.
  destruct buf as [|a0 buf]; [injection E as <-; reflexivity|].
  do 15 (destruct buf as [|? buf]; [discriminate E|]).
  cbn [blocks_of_bytes] in E.
  destruct (blocks_of_bytes buf) as [bs'|] eqn:E'; [|discriminate E].
  injection E as <-.
  rewrite (IH (length buf)) with (buf := buf) (bs := bs'); [reflexivity| |reflexivity|exact E'].
  subst n. cbn [length]. lia.
Qed.

Lemma blocks_of_bytes_total (buf : list byte) :
  length buf mod 16 = 0 -> exists bs, blocks_of_bytes buf = Some bs.
Proof.
  remember (length buf) as n eqn:Len. revert buf Len.
  induction n as [n IH] using lt_wf_ind. intros buf Len M.
  destruct buf as [|a0 buf]; [exists []; reflexivity|].
  do 15 (destruct buf as [|? buf];
         [subst n; cbn [length] in M; vm_compute in M; discriminate M|]).
  destruct (IH (length buf)) with (buf := buf) as [bs E].
  - subst n. cbn [length]. lia.
  - reflexivity.
  - subst n. cbn [length] in M.
    replace (S (S (S (S (S (S (S (S (S (S (S (S (S (S (S (S (length buf)))))))))))))))))
      with (length buf + 1 * 16) in M by lia.
    rewrite Nat.Div0.mod_add in M. exact M.
  - exists (((a0, a, a1, a2), (a3, a4, a5, a6), (a7, a8, a9, a10), (a11, a12, a13, a14)) :: bs).
    cbn [blocks_of_bytes]. rewrite E. reflexivity.
Qed.

Lemma blocks_of_bytes_none (buf : list byte) :
  length buf mod 16 <> 0 -> blocks_of_bytes buf = None.
Proof.
  intros M. destruct (blocks_of_bytes buf) as [bs|] eqn:E; [|reflexivity].
  apply blocks_of_bytes_some in E. subst buf.
  rewrite bytes_of_blocks_length, Nat.mul_comm, Nat.Div0.mod_mul in M. congruence.
Qed.

(** ** Padding *)

Lemma pad_length_range (len : nat) : 1 <= Cbc.pad_length len <= 16.
Proof.
  unfold Cbc.pad_length. pose proof (Nat.mod_upper_bound len 16). lia.
Qed.

Lemma pad_length_aligned (len : nat) : (len + Cbc.pad_length len) mod 16 = 0.
Proof.
  unfold Cbc.pad_length. pose proof (Nat.mod_upper_bound len 16 ltac:(lia)) as B.
  rewrite (Nat.div_mod_eq len 16) at 1.
  replace (16 * (len / 16) + len mod 16 + (16 - len mod 16))
    with ((len / 16 + 1) * 16) by lia.
  apply Nat.Div0.mod_mul.
Qed.

Lemma pad_aligned (data : list byte) : length (Cbc.pad data) mod 16 = 0.
Proof.
  unfold Cbc.pad. rewrite length_app, repeat_length. apply pad_length_aligned.
Qed.

Lemma last_repeat (data : list byte) (c d : byte) (n : nat) :
  1 <= n -> List.last (data ++ repeat c n) d = c.
Proof.
  intros N. destruct n as [|m]; [lia|].
  change (repeat c (S m)) with (c :: repeat c m).
  rewrite repeat_cons, app_assoc. apply last_last.
Qed.

Lemma forallb_repeat (c : byte) (n : nat) : forallb (Ascii.eqb c) (repeat c n) = true.
Proof. induction n as [|n IH]; cbn; [reflexivity|]. rewrite Ascii.eqb_refl. exact IH. Qed.

Lemma forallb_all (c : byte) (l : list byte) :
  forallb (Ascii.eqb c) l = true -> l = repeat c (length l).
Proof.
  induction l as [|a l IH]; cbn; [reflexivity|].
  intros E. apply andb_true_iff in E as [E1 E2].
  apply Ascii.eqb_eq in E1. subst a. rewrite <- (IH E2). reflexivity.
Qed.

Lemma nat_of_small_ascii (n : nat) : n <= 16 -> nat_of_ascii (ascii_of_nat n) = n.
Proof. intros N. apply nat_ascii_embedding. lia. Qed.

(** The padding check accepts what [pad] made and gives the data back. *)
Lemma unpad_pad (data : list byte) : Cbc.unpad (Cbc.pad data) = Some data.
Proof.
  unfold Cbc.unpad, Cbc.pad.
  pose proof (pad_length_range (length data)) as R.
  set (n := Cbc.pad_length (length data)) in *.
  rewrite last_repeat by lia. rewrite nat_of_small_ascii by lia.
  rewrite length_app, repeat_length.
  replace (length data + n - n) with (length data) by lia.
  rewrite skipn_app, skipn_all, Nat.sub_diag, skipn_O. cbn [app].
  rewrite forallb_repeat.
  rewrite firstn_app, firstn_all, Nat.sub_diag, firstn_O, app_nil_r.
  replace (1 <=? n) with true by (symmetry; apply Nat.leb_le; lia).
  replace (n <=? 16) with true by (symmetry; apply Nat.leb_le; lia).
  replace (n <=? length data + n) with true by (symmetry; apply Nat.leb_le; lia).
  reflexivity.
Qed.

(** Whole blocks that pass the padding check are the padding of the data
    the check returns. *)
Lemma pad_unpad (padded data : list byte) :
  length padded mod 16 = 0 -> Cbc.unpad padded = Some data -> Cbc.pad data = padded.
Proof.
  unfold Cbc.unpad, Cbc.pad. intros A.
  set (n := nat_of_ascii (List.last padded zero_byte)).
  destruct (1 <=? n) eqn:N1; [|discriminate].
  destruct (n <=? 16) eqn:N16; [|discriminate].
  destruct (n <=? length padded) eqn:NL; [|discriminate].
  cbn [andb].
  destruct (forallb _ _) eqn:F; [|discriminate].
  intros [= <-].
  apply Nat.leb_le in N1, N16, NL.
  apply forallb_all in F. rewrite length_skipn in F.
  replace (length padded - (length padded - n)) with n in F by lia.
  rewrite length_firstn, Nat.min_l by lia.
  assert (Cbc.pad_length (length padded - n) = n) as ->.
  { unfold Cbc.pad_length.
    apply Nat.Div0.div_exact in A.
    assert ((length padded - n) mod 16 = 16 - n) as ->; [|lia].
    destruct (Nat.eq_dec n 16) as [->|N].
    - replace (length padded - 16) with ((length padded / 16 - 1) * 16) by lia.
      apply Nat.Div0.mod_mul.
    - replace (length padded - n) with (16 - n + (length padded / 16 - 1) * 16) by lia.
      rewrite Nat.Div0.mod_add. apply Nat.mod_small. lia. }
  rewrite <- F. apply firstn_skipn.
Qed.

(** ** Cipher block chaining *)

Lemma decrypt_encrypt_blocks (keys : list AES.block) (chain : AES.block)
    (plain : list AES.block) :
  Cbc.decrypt_blocks keys chain (Cbc.encrypt_blocks keys chain plain) = plain.
Proof.
  revert chain. induction plain as [|p rest IH]; intros chain; [reflexivity|].
  cbn [Cbc.encrypt_blocks Cbc.decrypt_blocks].
  rewrite inv_cipher_cipher, xor_block_cancel_r, IH. reflexivity.
Qed.

Lemma encrypt_decrypt_blocks (keys : list AES.block) (chain : AES.block)
    (crypt : list AES.block) :
  Cbc.encrypt_blocks keys chain (Cbc.decrypt_blocks keys chain crypt) = crypt.
Proof.
  revert chain. induction crypt as [|c rest IH]; intros chain; [reflexivity|].
  cbn [Cbc.encrypt_blocks Cbc.decrypt_blocks].
  rewrite xor_block_cancel_r, cipher_inv_cipher, IH. reflexivity.
Qed.

Lemma encrypt_blocks_length (keys : list AES.block) (chain : AES.block)
    (plain : list AES.block) :
  length (Cbc.encrypt_blocks keys chain plain) = length plain.
Proof.
  revert chain. induction plain as [|p rest IH]; intros chain; [reflexivity|].
  cbn [Cbc.encrypt_blocks length]. rewrite IH. reflexivity.
Qed.

(** ** The cipher objects *)

(** A 16-byte IV and a 32-byte key make a cipher object. *)
Lemma create_total (key : string) (iv : list byte) :
  String.length key = 32 -> length iv = 16 -> exists c, Cbc.create key iv = inr c.
Proof.
  intros K V. unfold Cbc.create.
  do 17 (destruct iv as [|? iv]; try discriminate V).
  cbn [blocks_of_bytes].
  do 33 (destruct key as [|? key]; try discriminate K).
  cbn [list_ascii_of_string blocks_of_bytes]. eexists. reflexivity.
Qed.

Lemma create_some (key : string) (iv : list byte) (c : Cbc.context) :
  Cbc.create key iv = inr c -> String.length key = 32 /\ length iv = 16.
Proof.
  unfold Cbc.create. intros E.
  destruct (blocks_of_bytes iv) as [[|v [|? ?]]|] eqn:V; try discriminate E.
  destruct (blocks_of_bytes (list_ascii_of_string key)) as [[|k0 [|k1 [|? ?]]]|] eqn:K;
    try discriminate E.
  apply blocks_of_bytes_some in V, K.
  apply (f_equal (@length _)) in V, K.
  rewrite bytes_of_blocks_length in V, K. cbn [length] in V, K.
  split; [|exact V].
  change (16 * 2) with 32 in K. rewrite <- K. clear.
  induction key as [|a key IH]; cbn; congruence.
Qed.

(** The ciphertext is a positive whole number of blocks. *)
Lemma cipher_update_final_blocks (c : Cbc.context) (data : list byte) :
  exists crypt, crypt <> [] /\ Cbc.cipher_update_final c data = bytes_of_blocks crypt
    /\ Cbc.decrypt_blocks (Cbc.round_keys c) (Cbc.chain0 c) crypt <> []
    /\ bytes_of_blocks (Cbc.decrypt_blocks (Cbc.round_keys c) (Cbc.chain0 c) crypt)
       = Cbc.pad data.
Proof.
  unfold Cbc.cipher_update_final.
  destruct (blocks_of_bytes_total (Cbc.pad data) (pad_aligned data)) as [plain E].
  rewrite E. apply blocks_of_bytes_some in E.
  assert (plain <> []) as N.
  { intros ->. apply (f_equal (@length _)) in E. unfold Cbc.pad in E.
    rewrite length_app, repeat_length in E. cbn in E.
    pose proof (pad_length_range (length data)). lia. }
  exists (Cbc.encrypt_blocks (Cbc.round_keys c) (Cbc.chain0 c) plain).
  rewrite decrypt_encrypt_blocks. repeat split; auto.
  intros Z. apply (f_equal (@length _)) in Z. rewrite encrypt_blocks_length in Z.
  destruct plain; [congruence|discriminate Z].
Qed.

(** The decipher gives back what the cipher was fed. *)
Lemma decipher_cipher (c : Cbc.context) (data : list byte) :
  Cbc.decipher_update_final c (Cbc.cipher_update_final c data) = inr data.
Proof.
  destruct (cipher_update_final_blocks c data) as (crypt & N & -> & _ & P).
  unfold Cbc.decipher_update_final. rewrite blocks_of_bytes_of_blocks.
  destruct crypt as [|c0 crypt]; [congruence|].
  rewrite P, unpad_pad. reflexivity.
Qed.

(** A ciphertext the decipher accepts is the one the cipher makes of the
    decrypted data: no other ciphertext decrypts to the same data. *)
Lemma cipher_decipher (c : Cbc.context) (crypt data : list byte) :
  Cbc.decipher_update_final c crypt = inr data -> Cbc.cipher_update_final c data = crypt.
Proof.
  unfold Cbc.decipher_update_final, Cbc.cipher_update_final. intros E.
  destruct (blocks_of_bytes crypt) as [bs|] eqn:B; [|discriminate E].
  destruct bs as [|b bs]; [discriminate E|].
  destruct (Cbc.unpad _) as [plain|] eqn:U; [|discriminate E].
  injection E as ->.
  apply pad_unpad in U.
  - rewrite U, blocks_of_bytes_of_blocks, encrypt_decrypt_blocks.
    symmetry. apply blocks_of_bytes_some. exact B.
  - rewrite bytes_of_blocks_length, Nat.mul_comm. apply Nat.Div0.mod_mul.
Qed.

(** ** The crypto codec *)

Lemma append_inj_l (a b x y : string) :
  String.length a = String.length b -> a +:+ x = b +:+ y -> a = b.
Proof.
  revert b. induction a as [|c a IH]; intros [|d b] L E; try discriminate L.
  - reflexivity.
  - rewrite !append_String in E. injection E as -> E.
    f_equal. apply IH; [|exact E]. cbn in L. lia.
Qed.

Lemma flip_length (i : nat) (mask : byte) (buf : list byte) :
  length (flip i mask buf) = length buf.
Proof. unfold flip. apply length_alter. Qed.

Lemma flip_changes (i : nat) (mask : byte) (buf : list byte) :
  i < length buf -> mask <> zero_byte -> flip i mask buf <> buf.
Proof.
  unfold flip. intros L M E.
  destruct (lookup_lt_is_Some_2 buf i L) as [b B].
  apply (f_equal (fun l => l !! i)) in E.
  rewrite list_lookup_alter_eq, B in E. cbn in E. injection E as E.
  apply xor_byte_inj_r in E. contradiction.
Qed.

Section CodecProperties.
Context {Credential : Type} `{CredentialModule Credential}.

(** An envelope is taken apart into the IV and the ciphertext it was made of. *)
Lemma decrypt_envelope (iv crypt : list byte) (k : string) :
  decryptCredential (Hex.encode iv +:+ String colon (Hex.encode crypt)) k
  = open_envelope iv crypt k.
Proof.
  unfold decryptCredential.
  rewrite (split_segments _ _ _ (hex_encode_free_of_colon iv)).
  rewrite (split_free _ _ (hex_encode_free_of_colon crypt)).
  cbn [length Nat.ltb Nat.leb join]. rewrite !hex_decode_encode. reflexivity.
Qed.

Lemma encrypt_envelope (iv : list byte) (r : Credential) (k : string) (c : Cbc.context) :
  Cbc.create k iv = inr c ->
  encryptCredential iv r k
  = inr (Hex.encode iv +:+ String colon
           (Hex.encode (Cbc.cipher_update_final c (list_ascii_of_string (stringifyCredential r))))).
Proof. intros E. unfold encryptCredential. rewrite E. reflexivity. Qed.

Lemma encrypt_some (iv : list byte) (r : Credential) (k envelope : string) :
  encryptCredential iv r k = inr envelope ->
  exists c, Cbc.create k iv = inr c
    /\ envelope = Hex.encode iv +:+ String colon
         (Hex.encode (Cbc.cipher_update_final c (list_ascii_of_string (stringifyCredential r)))).
Proof.
  unfold encryptCredential. destruct (Cbc.create k iv) as [f|c]; [discriminate|].
  intros [= <-]. exists c. split; reflexivity.
Qed.

Lemma open_sealed (iv : list byte) (r : Credential) (k : string) (c : Cbc.context) :
  Cbc.create k iv = inr c -> valid_credential r ->
  open_envelope iv (Cbc.cipher_update_final c (list_ascii_of_string (stringifyCredential r))) k
  = inr r.
Proof.
  intros E V. unfold open_envelope. rewrite E. cbn.
  rewrite decipher_cipher. cbn.
  rewrite string_of_list_ascii_of_string. unfold parse. rewrite V. reflexivity.
Qed.

Lemma sealed_then_opened (r : Credential) (k : string) (iv : list byte) :
  valid_credential r -> String.length k = 32 -> length iv = 16 ->
  exists envelope,
    encryptCredential iv r k = inr envelope /\ decryptCredential envelope k = inr r.
Proof.
  intros V K L. destruct (create_total k iv K L) as [c E].
  eexists. split; [apply (encrypt_envelope _ _ _ _ E)|].
  rewrite decrypt_envelope. apply open_sealed; assumption.
Qed.

(** C1. For every valid credential record [r], every key [k] of 32 units and
    every 16-byte IV that [crypto.randomBytes] returns, [encryptCredential]
    produces an envelope and [decryptCredential] of that envelope under [k]
    returns [r]. *)
Theorem encrypt_decrypt_round_trip (r : Credential) (k : string) (iv : list byte) :
  valid_credential r -> String.length k = 32 -> length iv = 16 ->
  exists envelope,
    encryptCredential iv r k = inr envelope /\ decryptCredential envelope k = inr r.
Proof. exact (sealed_then_opened r k iv). Qed.

(** C9. For every valid record [r] and 32-unit key [k], two encryptions with
    distinct 16-byte IVs produce different envelopes, and each of the two
    envelopes decrypts under [k] to [r]. *)
Theorem distinct_ivs_distinct_envelopes (r : Credential) (k : string) (iv1 iv2 : list byte) :
  valid_credential r -> String.length k = 32 ->
  length iv1 = 16 -> length iv2 = 16 -> iv1 <> iv2 ->
  exists e1 e2,
    encryptCredential iv1 r k = inr e1 /\ encryptCredential iv2 r k = inr e2
    /\ e1 <> e2
    /\ decryptCredential e1 k = inr r /\ decryptCredential e2 k = inr r.
Proof.
  intros V K L1 L2 D.
  destruct (create_total k iv1 K L1) as [c1 E1].
  destruct (create_total k iv2 K L2) as [c2 E2].
  do 2 eexists.
  split; [apply (encrypt_envelope _ _ _ _ E1)|].
  split; [apply (encrypt_envelope _ _ _ _ E2)|].
  split.
  - intros E. apply append_inj_l in E.
    + apply hex_encode_inj in E. contradiction.
    + rewrite !hex_encode_length. lia.
  - rewrite !decrypt_envelope. split; apply open_sealed; assumption.
Qed.

(** C5. A string without a colon splits into fewer than two segments, and
    [decryptCredential] throws the invalid-envelope error whatever the key,
    before a decipher is made; a string with a colon is taken apart at its
    first colon: the text before it is decoded as the IV and all the text
    after it, further colons included, as the ciphertext. *)
Theorem decrypt_splits_at_first_colon (k : string) :
  (forall s, free_of colon s = true ->
     (length (split colon s) <? 2) = true /\ decryptCredential s k = inl InvalidEnvelope)
  /\ (forall first rest, free_of colon first = true ->
        (length (split colon (first +:+ String colon rest)) <? 2) = false
        /\ join colon (tail (split colon (first +:+ String colon rest))) = rest
        /\ decryptCredential (first +:+ String colon rest) k
           = open_envelope (Hex.decode first) (Hex.decode rest) k).
Proof.
  split.
  - intros s F. unfold decryptCredential. rewrite split_short, F. split; reflexivity.
  - intros first rest F.
    unfold decryptCredential. rewrite split_short, free_of_segments.
    rewrite (split_segments _ _ _ F). cbn [tail]. rewrite join_split.
    repeat split; reflexivity.
Qed.

(** C4, amended. For an envelope of [r] under [k], flipping a byte of the
    ciphertext portion never gives the serialization of [r] back: either the
    padding check of the decipher rejects the ciphertext and
    [decryptCredential] fails with the decryption failure, or the decipher
    accepts it and [decryptCredential] returns what [parseCredential] makes of
    a plaintext other than the serialization of [r]. *)
Theorem tampered_ciphertext (r : Credential) (k : string) (iv : list byte)
    (envelope : string) (i : nat) (mask : byte) :
  encryptCredential iv r k = inr envelope ->
  i < length (ciphertext_of envelope) -> mask <> zero_byte ->
  decryptCredential (tamper i mask envelope) k = inl (DecryptionFailure BadDecrypt)
  \/ exists plain, plain <> list_ascii_of_string (stringifyCredential r)
        /\ decryptCredential (tamper i mask envelope) k = parse (string_of_list_ascii plain).
Proof.
  intros E L M. apply encrypt_some in E as (c & C & ->).
  set (crypt := Cbc.cipher_update_final c _) in *.
  unfold ciphertext_of in L. unfold tamper.
  rewrite (split_segments _ _ _ (hex_encode_free_of_colon iv)) in *.
  rewrite (split_free _ _ (hex_encode_free_of_colon crypt)) in *.
  cbn [tail join] in *. rewrite !hex_decode_encode in *.
  rewrite decrypt_envelope. unfold open_envelope. rewrite C. cbn.
  destruct (Cbc.decipher_update_final c (flip i mask crypt)) as [f|plain] eqn:D.
  - left. cbn. do 2 f_equal.
    unfold Cbc.decipher_update_final in D.
    destruct (cipher_update_final_blocks c (list_ascii_of_string (stringifyCredential r)))
      as (bs & N & B & _).
    fold crypt in B.
    destruct (blocks_of_bytes_total (flip i mask crypt)) as [bs' B'].
    { rewrite flip_length, B, bytes_of_blocks_length, Nat.mul_comm. apply Nat.Div0.mod_mul. }
    rewrite B' in D. destruct bs' as [|b' bs'].
    + apply blocks_of_bytes_some in B'. apply (f_equal (@length _)) in B'.
      rewrite flip_length, B, bytes_of_blocks_length in B'. cbn in B'.
      destruct bs; [congruence|cbn in B'; lia].
    + destruct (Cbc.unpad _); [discriminate D|]. injection D as <-. reflexivity.
  - right. exists plain. split; [|reflexivity].
    intros ->. apply cipher_decipher in D.
    fold crypt in D. symmetry in D. revert D. apply flip_changes; assumption.
Qed.

End CodecProperties.

(** ** The path resolver *)

Lemma truthy_nonempty (s : string) : s <> EmptyString -> truthy (Some s) = true.
Proof. destruct s; [congruence|reflexivity]. Qed.

Section StorageProperties.
Context {Credential : Type} `{CredentialModule Credential} `{PathModule}.

(** C8, amended. Whenever the override variable is set to a non-empty value,
    the resolved directory is [path.join(override, namespace)], whatever the
    platform, the home directory and the other variables of the host. *)
Theorem override_replaces_platform_detection (h : host) (namespace override : string) :
  env h !! "APP_DATA_DIR_OVERRIDE" = Some override -> override <> EmptyString ->
  appDataDir h namespace = inr (path_join [override; namespace]).
Proof.
  intros E N. unfold appDataDir. rewrite E, (truthy_nonempty _ N). reflexivity.
Qed.

Lemma appDataDir_error (h : host) (namespace : string) (e : error) :
  appDataDir h namespace = inl e -> e = UnsupportedPlatform.
Proof.
  unfold appDataDir. destruct (truthy _); [discriminate|].
  destruct (String.eqb (platform h) "win32"); [discriminate|].
  destruct (String.eqb (platform h) "darwin"); [discriminate|].
  destruct (String.eqb (platform h) "linux"); [discriminate|].
  intros [= <-]. reflexivity.
Qed.

(** ** The storage strategy *)

Lemma io_bind_run {A B : Type} (m : io A) (f : A -> io B) (w : world) :
  (m ≫= f) w
  = match m w with
    | (inl e, w') => (inl e, w')
    | (inr x, w') => f x w'
    end.
Proof. reflexivity. Qed.

(** C2. A non-empty key whose length is not 32 makes the constructor throw
    the key-length error, on every host and in every world, and the world is
    as it was: no [fs] call was made and no node was created. *)
Theorem constructor_rejects_key_length (h : host) (namespace k : string) (w : world) :
  k <> EmptyString -> String.length k <> 32 ->
  constructor h namespace (Some k) w = (inl InvalidKeyLength, w).
Proof.
  intros N L. unfold constructor. rewrite (truthy_nonempty _ N).
  change (default EmptyString (Some k)) with k.
  apply Nat.eqb_neq in L. rewrite L. reflexivity.
Qed.

(** What a successful construction establishes. *)
Lemma constructor_some (h : host) (namespace : string) (encryptionKey : option string)
    (w w0 : world) (this : FileSystemStorageStrategy) :
  constructor h namespace encryptionKey w = (inr this, w0) ->
  this_encryptionKey this = encryptionKey
  /\ appDataDir h namespace = inr (this_appDataDir this)
  /\ is_Some (fs w0 !! this_appDataDir this)
  /\ (truthy encryptionKey = true -> String.length (default EmptyString encryptionKey) = 32).
Proof.
  unfold constructor.
  destruct (truthy encryptionKey && _) eqn:G; [discriminate|].
  assert (truthy encryptionKey = true ->
          String.length (default EmptyString encryptionKey) = 32) as K.
  { intros T. rewrite T in G. cbn in G. apply negb_false_iff, Nat.eqb_eq in G. exact G. }
  rewrite io_bind_run. unfold lift.
  destruct (appDataDir h namespace) as [e|dir]; [discriminate|].
  rewrite io_bind_run. unfold existsSync.
  destruct (bool_decide (is_Some (fs w !! dir))) eqn:P; cbn [negb].
  - apply bool_decide_eq_true in P.
    intros [= <- <-]. cbn. repeat split; auto.
  - apply bool_decide_eq_false in P.
    rewrite io_bind_run. unfold mkdirSync, called. cbn [fs calls].
    destruct (fs w !! dir) as [n|] eqn:D; [exfalso; apply P; eauto|].
    intros [= <- <-]. cbn. repeat split; auto.
    rewrite lookup_insert_eq. eauto.
Qed.

Lemma get_absent (this : FileSystemStorageStrategy) (x : string) (w : world) :
  fs w !! path_join [this_appDataDir this; x] = None ->
  getCredential this x w
  = (inr None, called (ExistsSync (path_join [this_appDataDir this; x])) w).
Proof.
  intros E. unfold getCredential. rewrite io_bind_run. unfold existsSync.
  rewrite E. rewrite bool_decide_eq_false_2 by (intros [? ?]; discriminate). reflexivity.
Qed.

Lemma get_present (this : FileSystemStorageStrategy) (x : string) (w : world) (n : node) :
  fs w !! path_join [this_appDataDir this; x] = Some n ->
  getCredential this x w
  = (match n with
     | File file => match of_file this file with inl e => inl e | inr c => inr (Some c) end
     | Dir => inl (FsError EISDIR)
     end,
     called (ReadFile (path_join [this_appDataDir this; x]))
       (called (ExistsSync (path_join [this_appDataDir this; x])) w)).
Proof.
  intros E. unfold getCredential. rewrite io_bind_run. unfold existsSync.
  rewrite E. rewrite bool_decide_eq_true_2 by eauto. cbn [negb].
  rewrite io_bind_run. unfold readFile, called. cbn [fs calls]. rewrite E.
  destruct n as [|file]; [reflexivity|].
  rewrite io_bind_run. unfold lift, of_file.
  destruct (if truthy (this_encryptionKey this) then _ else _); reflexivity.
Qed.

Lemma store_run (iv : list byte) (this : FileSystemStorageStrategy) (x : string)
    (r : Credential) (w : world) :
  storeCredential iv this x r w
  = match to_file iv this r with
    | inl e => (inl e, w)
    | inr serialized => writeFile (path_join [this_appDataDir this; x]) serialized w
    end.
Proof.
  unfold storeCredential. rewrite io_bind_run. unfold lift, to_file.
  destruct (if truthy (this_encryptionKey this) then _ else _); reflexivity.
Qed.

Lemma remove_absent (this : FileSystemStorageStrategy) (x : string) (w : world) :
  fs w !! path_join [this_appDataDir this; x] = None ->
  removeCredential this x w
  = (inr tt, called (ExistsSync (path_join [this_appDataDir this; x])) w).
Proof.
  intros E. unfold removeCredential. rewrite io_bind_run. unfold existsSync.
  rewrite E. rewrite bool_decide_eq_false_2 by (intros [? ?]; discriminate). reflexivity.
Qed.

Lemma remove_present (this : FileSystemStorageStrategy) (x : string) (w : world) (n : node) :
  fs w !! path_join [this_appDataDir this; x] = Some n ->
  removeCredential this x w
  = unlink (path_join [this_appDataDir this; x])
      (called (ExistsSync (path_join [this_appDataDir this; x])) w).
Proof.
  intros E. unfold removeCredential. rewrite io_bind_run. unfold existsSync.
  rewrite E. rewrite bool_decide_eq_true_2 by eauto. reflexivity.
Qed.

(** A text a strategy wrote for a valid record is read back as that record. *)
Lemma of_file_of_to_file (iv : list byte) (this : FileSystemStorageStrategy)
    (r : Credential) (file : string) :
  to_file iv this r = inr file -> valid_credential r -> of_file this file = inr r.
Proof.
  unfold to_file, of_file. intros T V.
  destruct (truthy (this_encryptionKey this)).
  - apply encrypt_some in T as (c & C & ->).
    rewrite decrypt_envelope. apply open_sealed; assumption.
  - injection T as <-. unfold parse. rewrite V. reflexivity.
Qed.

Lemma store_some (iv : list byte) (this : FileSystemStorageStrategy) (x : string)
    (r : Credential) (w w' : world) :
  storeCredential iv this x r w = (inr tt, w') ->
  exists file,
    to_file iv this r = inr file
    /\ fs w' = <[path_join [this_appDataDir this; x] := File file]> (fs w).
Proof.
  rewrite store_run. destruct (to_file iv this r) as [e|file]; [discriminate|].
  unfold writeFile. intros W. exists file. split; [reflexivity|].
  destruct (fs w !! _) as [[|old]|]; try discriminate W; injection W as <-; reflexivity.
Qed.

Lemma unlink_file (p content : string) (w : world) :
  fs w !! p = Some (File content) ->
  unlink p w = (inr tt, {| fs := delete p (fs w); calls := Unlink p :: calls w |}).
Proof. intros E. unfold unlink. rewrite E. reflexivity. Qed.

(** C3. For every instance, with or without an encryption key, and a storage
    key [x] with no node at its path: [getCredential(x)] returns [undefined];
    after a [storeCredential(x, r)] that completes, [getCredential(x)] returns
    [r]; after a [removeCredential(x)] that completes, [getCredential(x)]
    returns [undefined] again, and the nodes of the file system are what they
    were at the start.  Each call runs in the world the call before it
    left. *)
Theorem storage_lifecycle (this : FileSystemStorageStrategy) (x : string)
    (r : Credential) (iv : list byte) (w0 : world) :
  fs w0 !! path_join [this_appDataDir this; x] = None ->
  valid_credential r ->
  fst (getCredential this x w0) = inr None
  /\ (forall w2,
        storeCredential iv this x r (snd (getCredential this x w0)) = (inr tt, w2) ->
        fst (getCredential this x w2) = inr (Some r)
        /\ (forall w4,
              removeCredential this x (snd (getCredential this x w2)) = (inr tt, w4) ->
              fst (getCredential this x w4) = inr None /\ fs w4 = fs w0)).
Proof.
  intros E0 V. rewrite (get_absent this x w0 E0). split; [reflexivity|].
  intros w2 S. cbn [snd] in S. apply store_some in S as (file & T & F).
  cbn [called fs] in F.
  assert (fs w2 !! path_join [this_appDataDir this; x] = Some (File file)) as E2
    by (rewrite F; apply lookup_insert_eq).
  rewrite (get_present this x w2 _ E2), (of_file_of_to_file _ _ _ _ T V).
  split; [reflexivity|].
  intros w4 R. cbn [snd] in R.
  rewrite (remove_present this x _ (File file)) in R by (cbn [called fs]; exact E2).
  rewrite (unlink_file _ file) in R by (cbn [called fs]; exact E2).
  injection R as <-. cbn [called fs].
  rewrite get_absent by (cbn [fs]; apply lookup_delete_eq).
  split; [reflexivity|]. rewrite F. apply delete_insert_id. exact E0.
Qed.

(** C6. With no encryption key configured, after a [storeCredential(x, r)]
    that completes, the node at [path.join(appDataDir, x)] is a file whose
    whole content is the serialization of [r], as [readFile] returns it. *)
Theorem plaintext_store_writes_serialization (this : FileSystemStorageStrategy)
    (x : string) (r : Credential) (iv : list byte) (w w' : world) :
  this_encryptionKey this = None ->
  storeCredential iv this x r w = (inr tt, w') ->
  fs w' !! path_join [this_appDataDir this; x] = Some (File (stringifyCredential r))
  /\ readFile (path_join [this_appDataDir this; x]) w'
     = (inr (stringifyCredential r),
        called (ReadFile (path_join [this_appDataDir this; x])) w').
Proof.
  intros K S. apply store_some in S as (file & T & F).
  unfold to_file in T. rewrite K in T. cbn [truthy] in T. injection T as <-.
  assert (fs w' !! path_join [this_appDataDir this; x]
          = Some (File (stringifyCredential r))) as E
    by (rewrite F; apply lookup_insert_eq).
  split; [exact E|]. unfold readFile. rewrite E. reflexivity.
Qed.

(** C7. With no node at the path of a storage key, [getCredential] returns
    [undefined] and [removeCredential] completes, neither of them changing a
    node of the file system.  Nothing else is turned into a success:
    [getCredential] returns [undefined] only when the node is missing, and the
    errors of the calls an operation makes are the errors of the operation:
    of [readFile] and of decrypting or parsing for [getCredential], of
    encrypting and of [writeFile] for [storeCredential], of [unlink] for
    [removeCredential]. *)
Theorem missing_file_is_not_an_error (this : FileSystemStorageStrategy) (x : string)
    (w : world) :
  let p := path_join [this_appDataDir this; x] in
  (fs w !! p = None ->
     getCredential this x w = (inr None, called (ExistsSync p) w)
     /\ removeCredential this x w = (inr tt, called (ExistsSync p) w)
     /\ fs (called (ExistsSync p) w) = fs w)
  /\ (forall w', getCredential this x w = (inr None, w') -> fs w !! p = None)
  /\ (forall file e, fs w !! p = Some (File file) -> of_file this file = inl e ->
        fst (getCredential this x w) = inl e)
  /\ (forall e, fst (readFile p (called (ExistsSync p) w)) = inl e -> fs w !! p <> None ->
        fst (getCredential this x w) = inl e)
  /\ (forall e, fst (unlink p (called (ExistsSync p) w)) = inl e -> fs w !! p <> None ->
        fst (removeCredential this x w) = inl e)
  /\ (forall iv r e, to_file iv this r = inl e ->
        storeCredential iv this x r w = (inl e, w))
  /\ (forall iv r file e, to_file iv this r = inr file -> fst (writeFile p file w) = inl e ->
        fst (storeCredential iv this x r w) = inl e).
Proof.
  intros p. repeat split.
  - apply get_absent. assumption.
  - apply remove_absent. assumption.
  - intros w' G. destruct (fs w !! p) as [n|] eqn:E; [|reflexivity].
    rewrite (get_present this x w n E) in G.
    destruct n as [|file]; [discriminate|]. destruct (of_file this file); discriminate.
  - intros file e E O. rewrite (get_present this x w _ E), O. reflexivity.
  - intros e R N. destruct (fs w !! p) as [n|] eqn:E; [|congruence].
    rewrite (get_present this x w n E).
    unfold readFile in R. cbn [called fs fst] in R. fold p in E. rewrite E in R.
    destruct n as [|file]; cbn [fst] in *; [injection R as <-; reflexivity|discriminate R].
  - intros e U N. destruct (fs w !! p) as [n|] eqn:E; [|congruence].
    rewrite (remove_present this x w n E). exact U.
  - intros iv r e T. rewrite store_run, T. reflexivity.
  - intros iv r file e T W. rewrite store_run, T. exact W.
Qed.

(** C10. With the empty string as encryption key the constructor does not
    throw the key-length error: it does what it does without a key, and the
    instance it returns stores and reads plaintext, as an instance without a
    key does: [storeCredential] writes the serialization of the record,
    whatever the random bytes, and [getCredential] returns what
    [parseCredential] makes of the content of the file. *)
Theorem empty_key_is_no_key (h : host) (namespace : string) (dir x : string)
    (r : Credential) (iv : list byte) (w : world) :
  let keyed := {| this_appDataDir := dir; this_encryptionKey := Some EmptyString |} in
  let keyless := {| this_appDataDir := dir; this_encryptionKey := None |} in
  fst (constructor h namespace (Some EmptyString) w) <> inl InvalidKeyLength
  /\ constructor h namespace (Some EmptyString) w
     = (match constructor h namespace None w with
        | (inr this, w') =>
            (inr {| this_appDataDir := this_appDataDir this;
                    this_encryptionKey := Some EmptyString |}, w')
        | (inl e, w') => (inl e, w')
        end)
  /\ storeCredential iv keyed x r w = storeCredential iv keyless x r w
  /\ storeCredential iv keyed x r w
     = writeFile (path_join [dir; x]) (stringifyCredential r) w
  /\ getCredential keyed x w = getCredential keyless x w
  /\ (forall file, fs w !! path_join [dir; x] = Some (File file) ->
        fst (getCredential keyed x w)
        = match parseCredential file with
          | Some c => inr (Some c)
          | None => inl MalformedRecord
          end)
  /\ removeCredential keyed x w = removeCredential keyless x w.
Proof.
  intros keyed keyless.
  assert (constructor h namespace (Some EmptyString) w
          = match constructor h namespace None w with
            | (inr this, w') =>
                (inr {| this_appDataDir := this_appDataDir this;
                        this_encryptionKey := Some EmptyString |}, w')
            | (inl e, w') => (inl e, w')
            end) as C.
  { unfold constructor. cbn [truthy andb].
    rewrite !io_bind_run. unfold lift.
    destruct (appDataDir h namespace) as [e|d]; [reflexivity|].
    rewrite !io_bind_run. unfold existsSync.
    destruct (bool_decide (is_Some (fs w !! d))); cbn [negb].
    - reflexivity.
    - rewrite !io_bind_run. unfold mkdirSync. cbn [called fs].
      destruct (fs w !! d) as [[|?]|]; reflexivity. }
  split; [|split; [exact C|]].
  - unfold constructor. cbn [truthy andb].
    rewrite !io_bind_run. unfold lift.
    destruct (appDataDir h namespace) as [e|d] eqn:D.
    + cbn [fst]. intros [= ->]. apply appDataDir_error in D. discriminate D.
    + rewrite !io_bind_run. unfold existsSync.
      destruct (bool_decide (is_Some (fs w !! d))); cbn [negb].
      * discriminate.
      * rewrite !io_bind_run. unfold mkdirSync. cbn [called fs].
        destruct (fs w !! d) as [[|?]|]; discriminate.
  - split; [reflexivity|]. split; [rewrite store_run; reflexivity|].
    split; [reflexivity|]. split; [|reflexivity].
    intros file E. rewrite (get_present keyed x w _ E).
    unfold of_file, parse. cbn [keyed this_encryptionKey truthy fst].
    destruct (parseCredential file); reflexivity.
Qed.

End StorageProperties.

(** ** The model on the values of the tests *)

Example posix_join_normalizes :
  posix_join ["/var"; "namespace"] = "/var/namespace"
  /\ posix_join ["/var/"; "../a//b/./c/"] = "/a/b/c/"
  /\ posix_join [EmptyString; "ns"] = "ns"
  /\ posix_join ["a"; "../../b"] = "../b".
Proof. repeat split; vm_compute; reflexivity. Qed.

Example test_credential_json :
  String.length (json_of_IdToken testCredential) = 31
  /\ IdToken_of_json (json_of_IdToken testCredential) = Some testCredential.
Proof. split; vm_compute; reflexivity. Qed.

Example test_envelope :
  encryptCredential testIv testCredential testKey = inr testEnvelope
  /\ decryptCredential testEnvelope testKey = inr testCredential
  /\ tamper 0 one_byte testEnvelope = tamperedEnvelope.
Proof. repeat split; vm_compute; reflexivity. Qed.

(** Both outcomes of tampering occur: a flip in the first block leaves the
    padding valid, a flip in the last byte breaks it. *)
Example test_tampering :
  decryptCredential (tamper 0 one_byte testEnvelope) testKey
  = (inl MalformedRecord : result IdToken)
  /\ decryptCredential (tamper 31 one_byte testEnvelope) testKey
     = (inl (DecryptionFailure BadDecrypt) : result IdToken).
Proof. split; vm_compute; reflexivity. Qed.

(** The envelope is checked before the key: a key no cipher accepts. *)
Example test_envelope_before_key :
  decryptCredential "invalid" "short" = (inl InvalidEnvelope : result IdToken)
  /\ decryptCredential testEnvelope "short"
     = (inl (DecryptionFailure InvalidCipherKey) : result IdToken).
Proof. split; vm_compute; reflexivity. Qed.

Example test_constructor :
  constructor testHost "namespace" (Some testKey) emptyWorld = (inr keyedStrategy, namespaceWorld)
  /\ constructor testHost "namespace" None emptyWorld = (inr plainStrategy, namespaceWorld).
Proof. split; vm_compute; reflexivity. Qed.

Example test_unsupported_platform :
  constructor unsupportedHost "my-app" None emptyWorld = (inl UnsupportedPlatform, emptyWorld).
Proof. vm_compute. reflexivity. Qed.

(** The lifecycle of the tests without a key. *)
Example test_lifecycle_plaintext :
  fst ((before ← getCredential plainStrategy "credential.json";
        storeCredential testIv plainStrategy "credential.json" testCredential;;
        stored ← getCredential plainStrategy "credential.json";
        removeCredential plainStrategy "credential.json";;
        after ← getCredential plainStrategy "credential.json";
        mret (before, stored, after)) namespaceWorld)
  = inr (None, Some testCredential, None).
Proof. vm_compute. reflexivity. Qed.

(** C1, on the values of the tests. *)
Lemma encrypt_decrypt_round_trip_witness :
  valid_credential testCredential /\ String.length testKey = 32 /\ length testIv = 16
  /\ exists envelope,
       encryptCredential testIv testCredential testKey = inr envelope
       /\ decryptCredential envelope testKey = inr testCredential.
Proof.
  assert (valid_credential testCredential) as V by (vm_compute; reflexivity).
  assert (String.length testKey = 32) as K by reflexivity.
  assert (length testIv = 16) as L by reflexivity.
  repeat (split; [assumption|]).
  exact (encrypt_decrypt_round_trip testCredential testKey testIv V K L).
Defined.

(** C2, on the key of the usage example of the README, on a host whose
    platform [appDataDir] would refuse: the key is checked first. *)
Lemma constructor_rejects_key_length_witness :
  "my-secret-key" <> EmptyString /\ String.length "my-secret-key" <> 32
  /\ constructor unsupportedHost "my-app" (Some "my-secret-key") emptyWorld
     = (inl InvalidKeyLength, emptyWorld).
Proof.
  assert ("my-secret-key" <> EmptyString) as N by discriminate.
  assert (String.length "my-secret-key" <> 32) as L by (vm_compute; lia).
  repeat (split; [assumption|]).
  exact (constructor_rejects_key_length unsupportedHost "my-app" "my-secret-key" emptyWorld N L).
Defined.

(** C3, on the encrypted instance of the tests: the store and the remove
    complete, each in the world the call before it left. *)
Lemma storage_lifecycle_witness :
  fs namespaceWorld !! path_join [this_appDataDir keyedStrategy; "credential.json"] = None
  /\ valid_credential testCredential
  /\ storeCredential testIv keyedStrategy "credential.json" testCredential
       (snd (getCredential (Credential := IdToken) keyedStrategy "credential.json"
               namespaceWorld))
     = (inr tt, lifecycleStoredWorld)
  /\ removeCredential keyedStrategy "credential.json"
       (snd (getCredential (Credential := IdToken) keyedStrategy "credential.json"
               lifecycleStoredWorld))
     = (inr tt, lifecycleRemovedWorld)
  /\ fst (getCredential (Credential := IdToken) keyedStrategy "credential.json" namespaceWorld)
     = inr None
  /\ fst (getCredential keyedStrategy "credential.json" lifecycleStoredWorld)
     = inr (Some testCredential)
  /\ fst (getCredential (Credential := IdToken) keyedStrategy "credential.json"
            lifecycleRemovedWorld)
     = inr None
  /\ fs lifecycleRemovedWorld = fs namespaceWorld.
Proof.
  assert (fs namespaceWorld !! path_join [this_appDataDir keyedStrategy; "credential.json"]
          = None) as E by (vm_compute; reflexivity).
  assert (valid_credential testCredential) as V by (vm_compute; reflexivity).
  assert (storeCredential testIv keyedStrategy "credential.json" testCredential
            (snd (getCredential (Credential := IdToken) keyedStrategy "credential.json"
                    namespaceWorld))
          = (inr tt, lifecycleStoredWorld)) as S by (vm_compute; reflexivity).
  assert (removeCredential keyedStrategy "credential.json"
            (snd (getCredential (Credential := IdToken) keyedStrategy "credential.json"
                    lifecycleStoredWorld))
          = (inr tt, lifecycleRemovedWorld)) as R by (vm_compute; reflexivity).
  repeat (split; [assumption|]).
  destruct (storage_lifecycle keyedStrategy "credential.json" testCredential testIv
              namespaceWorld E V) as [G0 K].
  destruct (K lifecycleStoredWorld S) as [G2 K'].
  destruct (K' lifecycleRemovedWorld R) as [G4 F].
  exact (conj G0 (conj G2 (conj G4 F))).
Defined.

(** C4 as stated fails on the envelope of the tests: with the first byte of
    the ciphertext flipped the decipher accepts the ciphertext, and the error
    is the parser's, not a decryption failure. *)
Lemma tampering_not_rejected :
  (encryptCredential testIv testCredential testKey = inr testEnvelope
   /\ tamper 0 one_byte testEnvelope = tamperedEnvelope
   /\ decryptCredential tamperedEnvelope testKey = inl MalformedRecord)
  /\ ~ rejects_tampering testCredential testKey testIv 0 one_byte.
Proof.
  assert (encryptCredential testIv testCredential testKey = inr testEnvelope) as E
    by (vm_compute; reflexivity).
  assert (decryptCredential (tamper 0 one_byte testEnvelope) testKey = inl MalformedRecord) as D
    by (vm_compute; reflexivity).
  assert (tamper 0 one_byte testEnvelope = tamperedEnvelope) as T
    by (vm_compute; reflexivity).
  split.
  - split; [exact E|]. split; [exact T|]. rewrite <- T. exact D.
  - intros R. destruct (R testEnvelope E) as [why W]. rewrite D in W. discriminate W.
Qed.

(** C4, amended, on the envelope of the tests. *)
Lemma tampered_ciphertext_witness :
  encryptCredential testIv testCredential testKey = inr testEnvelope
  /\ 0 < length (ciphertext_of testEnvelope) /\ one_byte <> zero_byte
  /\ (decryptCredential (tamper 0 one_byte testEnvelope) testKey
        = inl (DecryptionFailure BadDecrypt)
      \/ exists plain, plain <> list_ascii_of_string (stringifyCredential testCredential)
            /\ decryptCredential (tamper 0 one_byte testEnvelope) testKey
               = parse (string_of_list_ascii plain)).
Proof.
  assert (encryptCredential testIv testCredential testKey = inr testEnvelope) as E
    by (vm_compute; reflexivity).
  assert (0 < length (ciphertext_of testEnvelope)) as L by (vm_compute; lia).
  assert (one_byte <> zero_byte) as M by discriminate.
  repeat (split; [assumption|]).
  exact (tampered_ciphertext testCredential testKey testIv testEnvelope 0 one_byte E L M).
Defined.

(** C5, on the string of the tests and on a string with two colons. *)
Lemma decrypt_splits_at_first_colon_witness :
  (free_of colon "invalid" = true
   /\ (length (split colon "invalid") <? 2) = true
   /\ decryptCredential (Credential := IdToken) "invalid" testKey = inl InvalidEnvelope)
  /\ (free_of colon "aa" = true
      /\ (length (split colon ("aa" +:+ String colon "bb:cc")) <? 2) = false
      /\ join colon (tail (split colon ("aa" +:+ String colon "bb:cc"))) = "bb:cc"
      /\ decryptCredential (Credential := IdToken) ("aa" +:+ String colon "bb:cc") testKey
         = open_envelope (Hex.decode "aa") (Hex.decode "bb:cc") testKey).
Proof.
  assert (free_of colon "invalid" = true) as F1 by reflexivity.
  assert (free_of colon "aa" = true) as F2 by reflexivity.
  split; (split; [assumption|]).
  - exact (proj1 (decrypt_splits_at_first_colon (Credential := IdToken) testKey)
             "invalid" F1).
  - exact (proj2 (decrypt_splits_at_first_colon (Credential := IdToken) testKey)
             "aa" "bb:cc" F2).
Defined.

(** C6, on the instance of the tests without a key. *)
Lemma plaintext_store_writes_serialization_witness :
  this_encryptionKey plainStrategy = None
  /\ storeCredential testIv plainStrategy "credential.json" testCredential namespaceWorld
     = (inr tt, plainStoredWorld)
  /\ fs plainStoredWorld !! path_join [this_appDataDir plainStrategy; "credential.json"]
     = Some (File (stringifyCredential testCredential))
  /\ readFile (path_join [this_appDataDir plainStrategy; "credential.json"]) plainStoredWorld
     = (inr (stringifyCredential testCredential),
        called (ReadFile (path_join [this_appDataDir plainStrategy; "credential.json"]))
          plainStoredWorld).
Proof.
  assert (this_encryptionKey plainStrategy = None) as K by reflexivity.
  assert (storeCredential testIv plainStrategy "credential.json" testCredential namespaceWorld
          = (inr tt, plainStoredWorld)) as S by (vm_compute; reflexivity).
  repeat (split; [assumption|]).
  exact (plaintext_store_writes_serialization plainStrategy "credential.json"
           testCredential testIv namespaceWorld plainStoredWorld K S).
Defined.

(** C7, on the instance of the tests with no file stored. *)
Lemma missing_file_is_not_an_error_witness :
  fs namespaceWorld !! path_join [this_appDataDir plainStrategy; "credential.json"] = None
  /\ getCredential plainStrategy "credential.json" namespaceWorld
     = (inr None, called (ExistsSync "/var/namespace/credential.json") namespaceWorld)
  /\ removeCredential plainStrategy "credential.json" namespaceWorld
     = (inr tt, called (ExistsSync "/var/namespace/credential.json") namespaceWorld)
  /\ fs (called (ExistsSync "/var/namespace/credential.json") namespaceWorld)
     = fs namespaceWorld.
Proof.
  assert (fs namespaceWorld !! path_join [this_appDataDir plainStrategy; "credential.json"]
          = None) as E by (vm_compute; reflexivity).
  split; [assumption|].
  destruct (missing_file_is_not_an_error (Credential := IdToken)
              plainStrategy "credential.json" namespaceWorld) as [A _].
  exact (A E).
Defined.

(** C8 as stated fails when the override variable is set to the empty
    string: the platform decides, and the directory is not
    [path.join(override, namespace)]. *)
Lemma empty_override_is_ignored :
  env emptyOverrideHost !! "APP_DATA_DIR_OVERRIDE" = Some EmptyString
  /\ appDataDir emptyOverrideHost "namespace" = inr "/var/namespace"
  /\ path_join [EmptyString; "namespace"] = "namespace"
  /\ appDataDir emptyOverrideHost "namespace" <> inr (path_join [EmptyString; "namespace"])
  /\ appDataDir {| env := env emptyOverrideHost; platform := "darwin"; homedir := "/Users/me" |}
       "namespace"
     = inr "/Users/me/Library/Application Support/namespace"
  /\ appDataDir {| env := env emptyOverrideHost; platform := "freebsd"; homedir := "/root" |}
       "namespace"
     = inl UnsupportedPlatform.
Proof.
  split; [vm_compute; reflexivity|].
  split; [vm_compute; reflexivity|].
  split; [vm_compute; reflexivity|].
  split; [vm_compute; discriminate|].
  split; vm_compute; reflexivity.
Qed.

(** C8, amended, on the host of the tests. *)
Lemma override_replaces_platform_detection_witness :
  env testHost !! "APP_DATA_DIR_OVERRIDE" = Some "/var" /\ "/var" <> EmptyString
  /\ appDataDir testHost "namespace" = inr (path_join ["/var"; "namespace"]).
Proof.
  assert (env testHost !! "APP_DATA_DIR_OVERRIDE" = Some "/var") as E
    by (vm_compute; reflexivity).
  assert ("/var" <> EmptyString) as N by discriminate.
  repeat (split; [assumption|]).
  exact (override_replaces_platform_detection testHost "namespace" "/var" E N).
Defined.

(** C9, on the values of the tests and a second IV of sixteen zero bytes. *)
Lemma distinct_ivs_distinct_envelopes_witness :
  valid_credential testCredential /\ String.length testKey = 32
  /\ length testIv = 16 /\ length (repeat zero_byte 16) = 16
  /\ testIv <> repeat zero_byte 16
  /\ exists e1 e2,
       encryptCredential testIv testCredential testKey = inr e1
       /\ encryptCredential (repeat zero_byte 16) testCredential testKey = inr e2
       /\ e1 <> e2
       /\ decryptCredential e1 testKey = inr testCredential
       /\ decryptCredential e2 testKey = inr testCredential.
Proof.
  assert (valid_credential testCredential) as V by (vm_compute; reflexivity).
  assert (String.length testKey = 32) as K by reflexivity.
  assert (length testIv = 16) as L1 by reflexivity.
  assert (length (repeat zero_byte 16) = 16) as L2 by reflexivity.
  assert (testIv <> repeat zero_byte 16) as D by (vm_compute; discriminate).
  repeat (split; [assumption|]).
  exact (distinct_ivs_distinct_envelopes testCredential testKey testIv (repeat zero_byte 16)
           V K L1 L2 D).
Defined.

(** C10, on the host of the tests and a plaintext file. *)
Lemma empty_key_is_no_key_witness :
  constructor testHost "namespace" (Some EmptyString) emptyWorld
  = (inr {| this_appDataDir := "/var/namespace"; this_encryptionKey := Some EmptyString |},
     namespaceWorld)
  /\ fst (getCredential
           {| this_appDataDir := "/var/namespace"; this_encryptionKey := Some EmptyString |}
           "credential.json"
           {| fs := <[ "/var/namespace/credential.json" := File (json_of_IdToken testCredential) ]>
                      (fs namespaceWorld);
              calls := [] |})
     = inr (Some testCredential).
Proof.
  split; [vm_compute; reflexivity|].
  destruct (empty_key_is_no_key (Credential := IdToken) testHost "namespace" "/var/namespace"
              "credential.json" testCredential testIv
              {| fs := <[ "/var/namespace/credential.json" := File (json_of_IdToken testCredential) ]>
                         (fs namespaceWorld);
                 calls := [] |}) as (_ & _ & _ & _ & _ & G & _).
  rewrite (G (json_of_IdToken testCredential)) by (vm_compute; reflexivity).
  vm_compute. reflexivity.
Defined.

(** * Further properties *)

(** ** The cipher objects *)

Lemma list_ascii_of_string_length (s : string) :
  length (list_ascii_of_string s) = String.length s.
Proof. induction s as [|c s IH]; cbn; congruence. Qed.

Lemma append_length (a b : string) :
  String.length (a +:+ b) = String.length a + String.length b.
Proof.
  induction a as [|c a IH]; [reflexivity|].
  rewrite append_String. cbn [String.length]. rewrite IH. reflexivity.
Qed.

Lemma blocks_of_bytes_count (buf : list byte) (bs : list AES.block) :
  blocks_of_bytes buf = Some bs -> length buf = 16 * length bs.
Proof.
  intros E. apply blocks_of_bytes_some in E. subst buf. apply bytes_of_blocks_length.
Qed.

Lemma blocks_of_bytes_exact (buf : list byte) (n : nat) :
  length buf = 16 * n -> exists bs, blocks_of_bytes buf = Some bs /\ length bs = n.
Proof.
  intros L. destruct (blocks_of_bytes_total buf) as [bs E].
  - rewrite L, Nat.mul_comm. apply Nat.Div0.mod_mul.
  - exists bs. split; [exact E|]. apply blocks_of_bytes_count in E. lia.
Qed.

(** [createCipheriv] looks at the IV first and at the key second. *)
Lemma create_invalid_iv (key : string) (iv : list byte) :
  length iv <> 16 -> Cbc.create key iv = inl InvalidIv.
Proof.
  intros L. unfold Cbc.create.
  destruct (blocks_of_bytes iv) as [[|v [|? ?]]|] eqn:E; try reflexivity.
  apply blocks_of_bytes_count in E. cbn in E. contradiction.
Qed.

Lemma create_invalid_key (key : string) (iv : list byte) :
  length iv = 16 -> String.length key <> 32 -> Cbc.create key iv = inl InvalidCipherKey.
Proof.
  intros L K. unfold Cbc.create.
  destruct (blocks_of_bytes_exact iv 1 L) as ([|v [|? ?]] & -> & N); try discriminate N.
  destruct (blocks_of_bytes (list_ascii_of_string key)) as [[|k0 [|k1 [|? ?]]]|] eqn:E;
    try reflexivity.
  apply blocks_of_bytes_count in E. rewrite list_ascii_of_string_length in E.
  cbn in E. contradiction.
Qed.

Lemma pad_exact_length (data : list byte) :
  length (Cbc.pad data) = 16 * (length data / 16 + 1).
Proof.
  unfold Cbc.pad, Cbc.pad_length. rewrite length_app, repeat_length.
  pose proof (Nat.mod_upper_bound (length data) 16 ltac:(lia)).
  pose proof (Nat.div_mod_eq (length data) 16). lia.
Qed.

Lemma cipher_update_final_length (c : Cbc.context) (data : list byte) :
  length (Cbc.cipher_update_final c data) = 16 * (length data / 16 + 1).
Proof.
  unfold Cbc.cipher_update_final.
  destruct (blocks_of_bytes_total (Cbc.pad data) (pad_aligned data)) as [plain E].
  rewrite E. apply blocks_of_bytes_count in E.
  rewrite bytes_of_blocks_length, encrypt_blocks_length, <- E. apply pad_exact_length.
Qed.

Lemma decipher_wrong_length (c : Cbc.context) (crypt : list byte) :
  length crypt mod 16 <> 0 \/ crypt = [] ->
  Cbc.decipher_update_final c crypt = inl WrongFinalBlockLength.
Proof.
  intros [M| ->]; unfold Cbc.decipher_update_final.
  - rewrite (blocks_of_bytes_none _ M). reflexivity.
  - reflexivity.
Qed.

(** ** The crypto codec, further *)

Lemma append_assoc (a b c : string) : (a +:+ b) +:+ c = a +:+ (b +:+ c).
Proof.
  induction a as [|x a IH]; [reflexivity|].
  rewrite !append_String, IH. reflexivity.
Qed.

Lemma all_chars_append (test : ascii -> bool) (a b : string) :
  all_chars test (a +:+ b) = all_chars test a && all_chars test b.
Proof.
  induction a as [|c a IH]; [reflexivity|].
  rewrite append_String. cbn [all_chars]. rewrite IH. apply andb_assoc.
Qed.

Lemma hex_digit_envelope_char (b0 b1 b2 b3 : bool) :
  envelope_char (Hex.digit b0 b1 b2 b3) = true.
Proof. destruct b0, b1, b2, b3; reflexivity. Qed.

Lemma hex_encode_envelope_chars (buf : list byte) :
  all_chars envelope_char (Hex.encode buf) = true.
Proof.
  induction buf as [|[b0 b1 b2 b3 b4 b5 b6 b7] rest IH]; [reflexivity|].
  cbn [Hex.encode all_chars]. rewrite !hex_digit_envelope_char, IH. reflexivity.
Qed.

(** Decoding goes on after the digits of a buffer. *)
Lemma hex_decode_encode_append (buf : list byte) (text : string) :
  Hex.decode (Hex.encode buf +:+ text) = buf ++ Hex.decode text.
Proof.
  induction buf as [|[b0 b1 b2 b3 b4 b5 b6 b7] rest IH]; [reflexivity|].
  cbn [Hex.encode]. rewrite !append_String. cbn [Hex.decode].
  rewrite !hex_value_digit, IH. reflexivity.
Qed.

Lemma upper_digit_value (c : ascii) : Hex.value (upper_digit c) = Hex.value c.
Proof. destruct c as [[] [] [] [] [] [] [] []]; reflexivity. Qed.

Lemma upper_digit_colon (c : ascii) :
  Ascii.eqb (upper_digit c) colon = Ascii.eqb c colon.
Proof. destruct c as [[] [] [] [] [] [] [] []]; reflexivity. Qed.

Lemma upper_hex_append (a b : string) : upper_hex (a +:+ b) = upper_hex a +:+ upper_hex b.
Proof.
  induction a as [|c a IH]; [reflexivity|].
  rewrite append_String. cbn [upper_hex]. rewrite append_String, IH. reflexivity.
Qed.

Lemma hex_decode_upper (s : string) : Hex.decode (upper_hex s) = Hex.decode s.
Proof.
  assert (forall n s, String.length s <= n -> Hex.decode (upper_hex s) = Hex.decode s) as G.
  { intros n. induction n as [|n IH]; intros [|hi [|lo rest]] L; try reflexivity.
    - cbn in L. lia.
    - cbn [upper_hex Hex.decode]. rewrite !upper_digit_value.
      rewrite IH by (cbn in L; lia). reflexivity. }
  apply (G (String.length s)). lia.
Qed.

Lemma split_upper (s : string) :
  split colon (upper_hex s) = map upper_hex (split colon s).
Proof.
  induction s as [|c rest IH]; [reflexivity|].
  cbn [upper_hex split]. rewrite upper_digit_colon, IH.
  destruct (Ascii.eqb c colon); [reflexivity|].
  pose proof (split_nonempty colon rest).
  destruct (split colon rest); [congruence|reflexivity].
Qed.

Lemma join_upper (parts : list string) :
  join colon (map upper_hex parts) = upper_hex (join colon parts).
Proof.
  induction parts as [|p rest IH]; [reflexivity|].
  destruct rest as [|q rest]; [reflexivity|].
  change (join colon (map upper_hex (p :: q :: rest)))
    with (upper_hex p +:+ String colon (join colon (map upper_hex (q :: rest)))).
  change (join colon (p :: q :: rest)) with (p +:+ String colon (join colon (q :: rest))).
  rewrite IH, upper_hex_append. reflexivity.
Qed.

Section CodecFurther.
Context {Credential : Type} `{CredentialModule Credential}.

Lemma decrypt_segments (first rest k : string) :
  free_of colon first = true ->
  decryptCredential (first +:+ String colon rest) k
  = open_envelope (Hex.decode first) (Hex.decode rest) k.
Proof.
  intros F. unfold decryptCredential. rewrite split_short, free_of_segments.
  rewrite (split_segments _ _ _ F), join_split. reflexivity.
Qed.

(** X1. [encryptCredential] does not check its key: it returns an envelope
    exactly when the key has 32 units and the IV 16 bytes, and otherwise
    throws what [createCipheriv] throws: the invalid-IV error for a wrong IV
    with a right key, the invalid-key error for a wrong key with a right
    IV. *)
Theorem encrypt_needs_key_and_iv (iv : list byte) (r : Credential) (k : string) :
  ((exists envelope, encryptCredential iv r k = inr envelope)
   <-> String.length k = 32 /\ length iv = 16)
  /\ (length iv <> 16 \/ String.length k <> 32 ->
      exists why, encryptCredential iv r k = inl (DecryptionFailure why))
  /\ (length iv <> 16 -> String.length k = 32 ->
      encryptCredential iv r k = inl (DecryptionFailure InvalidIv))
  /\ (length iv = 16 -> String.length k <> 32 ->
      encryptCredential iv r k = inl (DecryptionFailure InvalidCipherKey)).
Proof.
  split; [split|split; [|split]].
  - intros [envelope E]. apply encrypt_some in E as (c & C & _).
    apply create_some in C. exact C.
  - intros [K L]. destruct (create_total k iv K L) as [c C].
    eexists. apply (encrypt_envelope _ _ _ _ C).
  - intros B. unfold encryptCredential.
    destruct (Cbc.create k iv) as [f|c] eqn:C; [eexists; reflexivity|].
    apply create_some in C. lia.
  - intros L _. unfold encryptCredential. rewrite (create_invalid_iv _ _ L). reflexivity.
  - intros L K. unfold encryptCredential. rewrite (create_invalid_key _ _ L K). reflexivity.
Qed.

(** X2. An envelope is the 32 hexadecimal digits of the IV, one colon, and
    the hexadecimal digits of a ciphertext of as many whole blocks as hold
    the serialization and at least one byte of padding; it is written with
    lower-case digits and the colon only, and splits into exactly two
    segments. *)
Theorem envelope_format (iv : list byte) (r : Credential) (k envelope : string) :
  encryptCredential iv r k = inr envelope ->
  exists crypt,
    envelope = Hex.encode iv +:+ String colon (Hex.encode crypt)
    /\ split colon envelope = [Hex.encode iv; Hex.encode crypt]
    /\ length iv = 16
    /\ length crypt = 16 * (String.length (stringifyCredential r) / 16 + 1)
    /\ String.length envelope = 33 + 32 * (String.length (stringifyCredential r) / 16 + 1)
    /\ all_chars envelope_char envelope = true.
Proof.
  intros E. apply encrypt_some in E as (c & C & ->).
  apply create_some in C as [_ L].
  set (crypt := Cbc.cipher_update_final c _).
  assert (length crypt = 16 * (String.length (stringifyCredential r) / 16 + 1)) as N.
  { unfold crypt. rewrite cipher_update_final_length, list_ascii_of_string_length.
    reflexivity. }
  exists crypt. split; [reflexivity|]. split.
  { rewrite (split_segments _ _ _ (hex_encode_free_of_colon iv)).
    rewrite (split_free _ _ (hex_encode_free_of_colon crypt)). reflexivity. }
  split; [exact L|]. split; [exact N|]. split.
  - rewrite append_length. cbn [String.length]. rewrite !hex_encode_length, L, N. lia.
  - rewrite all_chars_append. cbn [all_chars].
    rewrite !hex_encode_envelope_chars. reflexivity.
Qed.

(** X3. With a colon in the text, [decryptCredential] throws an error of
    [crypto] when the first segment does not decode to 16 bytes or the key
    has not 32 units: the invalid-IV error for a wrong IV with a right key,
    the invalid-key error for a wrong key with a right IV; with both right,
    it throws the wrong-final-block error on a ciphertext that is empty or no
    whole number of blocks. *)
Theorem decrypt_rejects_wrong_sizes (first rest k : string) :
  free_of colon first = true ->
  (length (Hex.decode first) <> 16 \/ String.length k <> 32 ->
   exists why,
     decryptCredential (first +:+ String colon rest) k = inl (DecryptionFailure why))
  /\ (length (Hex.decode first) <> 16 -> String.length k = 32 ->
      decryptCredential (first +:+ String colon rest) k = inl (DecryptionFailure InvalidIv))
  /\ (length (Hex.decode first) = 16 -> String.length k <> 32 ->
      decryptCredential (first +:+ String colon rest) k
      = inl (DecryptionFailure InvalidCipherKey))
  /\ (length (Hex.decode first) = 16 -> String.length k = 32 ->
      length (Hex.decode rest) mod 16 <> 0 \/ Hex.decode rest = [] ->
      decryptCredential (first +:+ String colon rest) k
      = inl (DecryptionFailure WrongFinalBlockLength)).
Proof.
  intros F. rewrite (decrypt_segments _ _ _ F). unfold open_envelope.
  split; [|split; [|split]].
  - intros B. destruct (Cbc.create k (Hex.decode first)) as [f|c] eqn:C;
      [eexists; reflexivity|].
    apply create_some in C. lia.
  - intros L _. rewrite (create_invalid_iv _ _ L). reflexivity.
  - intros L K. rewrite (create_invalid_key _ _ L K). reflexivity.
  - intros L K W. destruct (create_total k _ K L) as [c ->]. cbn.
    rewrite (decipher_wrong_length _ _ W). reflexivity.
Qed.

(** X4. Text after the ciphertext that does not start with two hexadecimal
    digits is ignored: an envelope followed by a line end, by a further colon
    and more text, or by one stray digit decrypts to the record all the
    same. *)
Theorem trailing_text_is_ignored (iv : list byte) (r : Credential)
    (k envelope junk : string) :
  encryptCredential iv r k = inr envelope -> valid_credential r ->
  Hex.decode junk = [] ->
  decryptCredential (envelope +:+ junk) k = inr r.
Proof.
  intros E V J. apply encrypt_some in E as (c & C & ->).
  rewrite append_assoc, append_String.
  rewrite (decrypt_segments _ _ _ (hex_encode_free_of_colon iv)).
  rewrite hex_decode_encode, hex_decode_encode_append, J, app_nil_r.
  apply open_sealed; assumption.
Qed.

(** X5. [decryptCredential] does not tell the case of the hexadecimal
    letters: a text and the same text with [a]..[f] in upper case give the
    same result. *)
Theorem decrypt_ignores_hex_case (s k : string) :
  decryptCredential (upper_hex s) k = decryptCredential s k.
Proof.
  unfold decryptCredential. rewrite split_upper, length_map.
  destruct (length (split colon s) <? 2); [reflexivity|].
  destruct (split colon s) as [|first rest]; [reflexivity|].
  cbn [map]. rewrite join_upper, !hex_decode_upper. reflexivity.
Qed.

End CodecFurther.

(** ** The IV of an envelope *)

Lemma xor_byte_assoc (a b c : byte) : xor_byte a (xor_byte b c) = xor_byte (xor_byte a b) c.
Proof. destruct a, b, c; cbn; f_equal; symmetry; apply xorb_assoc. Qed.

(** A flipped byte of the chaining block is the same flip of the block that
    is decrypted against it. *)
Lemma flip_chain (iv : list byte) (v : AES.block) (j : nat) (mask : byte) :
  blocks_of_bytes iv = Some [v] -> j < 16 ->
  exists v',
    blocks_of_bytes (flip j mask iv) = Some [v']
    /\ forall a, bytes_of_block (AES.xor_block a v')
                 = flip j mask (bytes_of_block (AES.xor_block a v)).
Proof.
  intros E J.
  assert (length iv = 16) as L by (apply blocks_of_bytes_count in E; exact E).
  do 17 (destruct iv as [|? iv]; try discriminate L).
  cbn [blocks_of_bytes] in E. injection E as <-.
  do 16 (destruct j as [|j];
         [eexists; split; [reflexivity|];
          intros [[[[[[? ?] ?] ?] [[[? ?] ?] ?]] [[[? ?] ?] ?]] [[[? ?] ?] ?]];
          cbn; rewrite xor_byte_assoc; reflexivity|]).
  lia.
Qed.

Lemma flip_app_l (j : nat) (mask : byte) (a b : list byte) :
  j < length a -> flip j mask (a ++ b) = flip j mask a ++ b.
Proof. intros L. unfold flip. apply alter_app_l. exact L. Qed.

Lemma pad_flip (j : nat) (mask : byte) (data : list byte) :
  j < length data -> flip j mask (Cbc.pad data) = Cbc.pad (flip j mask data).
Proof.
  intros L. unfold Cbc.pad. rewrite flip_length. apply flip_app_l. exact L.
Qed.

Section IvProperties.
Context {Credential : Type} `{CredentialModule Credential}.

(** X6. The IV of an envelope is not protected: for a record whose
    serialization has at least 16 units, a flip of byte [j] of the IV that
    leaves the serialization, flipped the same way at its unit [j], ASCII
    text, makes [decryptCredential] return, with no error of the decipher,
    what [parseCredential] makes of that flipped serialization. *)
Theorem tampered_iv_flips_plaintext (iv : list byte) (r : Credential)
    (k envelope : string) (j : nat) (mask : byte) :
  encryptCredential iv r k = inr envelope ->
  j < 16 -> 16 <= String.length (stringifyCredential r) ->
  forallb seven_bit (flip j mask (list_ascii_of_string (stringifyCredential r))) = true ->
  decryptCredential (tamper_iv j mask envelope) k
  = parse (string_of_list_ascii
             (flip j mask (list_ascii_of_string (stringifyCredential r)))).
Proof.
  intros E J S _. apply encrypt_some in E as (c & C & ->).
  set (data := list_ascii_of_string (stringifyCredential r)) in *.
  assert (j < length data) as JD
    by (unfold data; rewrite list_ascii_of_string_length; lia).
  destruct (cipher_update_final_blocks c data) as (bs & N & B & _ & P).
  unfold tamper_iv.
  rewrite (split_segments _ _ _ (hex_encode_free_of_colon iv)).
  rewrite (split_free _ _ (hex_encode_free_of_colon (Cbc.cipher_update_final c data))).
  cbn [join]. rewrite hex_decode_encode.
  rewrite (decrypt_segments _ _ _ (hex_encode_free_of_colon _)).
  rewrite !hex_decode_encode. unfold open_envelope.
  unfold Cbc.create in C |- *.
  destruct (blocks_of_bytes iv) as [[|v [|? ?]]|] eqn:V; try discriminate C.
  destruct (flip_chain iv v j mask V J) as (v' & -> & F).
  destruct (blocks_of_bytes (list_ascii_of_string k)) as [[|k0 [|k1 [|? ?]]]|];
    try discriminate C.
  injection C as <-. cbn [crypto mbind result_bind].
  unfold Cbc.decipher_update_final. cbn [Cbc.round_keys Cbc.chain0] in *.
  rewrite B, blocks_of_bytes_of_blocks.
  destruct bs as [|a bs]; [congruence|].
  cbn [Cbc.decrypt_blocks] in *. unfold bytes_of_blocks in *. cbn [map concat] in *.
  rewrite F, <- flip_app_l by (rewrite bytes_of_block_length; exact J).
  rewrite P, pad_flip by exact JD. rewrite unpad_pad. reflexivity.
Qed.

End IvProperties.

(** ** The path resolver and the storage strategy, further *)

Section StorageFurther.
Context {Credential : Type} `{CredentialModule Credential} `{PathModule}.

(** X7. [appDataDir] throws only the unsupported-platform error, and it does
    so exactly when the override variable is unset or empty and the platform
    is none of [win32], [darwin] and [linux]. *)
Theorem appDataDir_fails_on_unknown_platform_only (h : host) (namespace : string) :
  (appDataDir h namespace = inl UnsupportedPlatform
   <-> truthy (env h !! "APP_DATA_DIR_OVERRIDE") = false
       /\ platform h <> "win32" /\ platform h <> "darwin" /\ platform h <> "linux")
  /\ (forall e, appDataDir h namespace = inl e -> e = UnsupportedPlatform).
Proof.
  split; [|apply appDataDir_error].
  unfold appDataDir. destruct (truthy _).
  { split; [discriminate|]. intros [? _]. discriminate. }
  destruct (String.eqb (platform h) "win32") eqn:W.
  { apply String.eqb_eq in W. split; [discriminate|]. intros (_ & N & _). contradiction. }
  destruct (String.eqb (platform h) "darwin") eqn:D.
  { apply String.eqb_eq in D. split; [discriminate|]. intros (_ & _ & N & _). contradiction. }
  destruct (String.eqb (platform h) "linux") eqn:L.
  { apply String.eqb_eq in L. split; [discriminate|]. intros (_ & _ & _ & N). contradiction. }
  apply String.eqb_neq in W, D, L. split; [|reflexivity]. intros _. auto.
Qed.

(** What the constructor does once the key has passed. *)
Lemma constructor_run (h : host) (namespace : string) (encryptionKey : option string)
    (w : world) :
  truthy encryptionKey && negb (String.length (default EmptyString encryptionKey) =? 32)
  = false ->
  constructor h namespace encryptionKey w
  = match appDataDir h namespace with
    | inl e => (inl e, w)
    | inr dir =>
        (inr {| this_appDataDir := dir; this_encryptionKey := encryptionKey |},
         if bool_decide (is_Some (fs w !! dir)) then called (ExistsSync dir) w
         else {| fs := <[dir := Dir]> (fs w);
                 calls := MkdirSync dir :: ExistsSync dir :: calls w |})
    end.
Proof.
  intros G. unfold constructor. rewrite G, io_bind_run. unfold lift.
  destruct (appDataDir h namespace) as [e|dir]; [reflexivity|].
  rewrite io_bind_run. unfold existsSync.
  destruct (bool_decide (is_Some (fs w !! dir))) eqn:P; cbn [negb]; [reflexivity|].
  apply bool_decide_eq_false in P.
  rewrite io_bind_run. unfold mkdirSync. cbn [called fs calls].
  destruct (fs w !! dir) as [n|]; [exfalso; apply P; eauto|reflexivity].
Qed.

Lemma constructor_passed (h : host) (namespace : string) (encryptionKey : option string)
    (w w' : world) (this : FileSystemStorageStrategy) :
  constructor h namespace encryptionKey w = (inr this, w') ->
  truthy encryptionKey && negb (String.length (default EmptyString encryptionKey) =? 32)
  = false.
Proof.
  unfold constructor. destruct (truthy encryptionKey && _); [discriminate|reflexivity].
Qed.

Lemma key_guard (encryptionKey : option string) :
  truthy encryptionKey && negb (String.length (default EmptyString encryptionKey) =? 32)
  = true
  <-> exists k, encryptionKey = Some k /\ k <> EmptyString /\ String.length k <> 32.
Proof.
  split.
  - intros G. apply andb_true_iff in G as [T L].
    destruct encryptionKey as [[|c k]|]; try discriminate T.
    exists (String c k). split; [reflexivity|]. split; [discriminate|].
    apply negb_true_iff, Nat.eqb_neq in L. exact L.
  - intros (k & -> & N & L). rewrite (truthy_nonempty _ N).
    apply Nat.eqb_neq in L. cbn. rewrite L. reflexivity.
Qed.

(** X8. The constructor throws the key-length error exactly when a key is
    given that is not empty and has not 32 units: no key, the empty key and
    every key of 32 units pass the check. *)
Theorem key_length_error_exactly (h : host) (namespace : string)
    (encryptionKey : option string) (w : world) :
  fst (constructor h namespace encryptionKey w) = inl InvalidKeyLength
  <-> exists k, encryptionKey = Some k /\ k <> EmptyString /\ String.length k <> 32.
Proof.
  rewrite <- key_guard.
  destruct (truthy encryptionKey && _) eqn:G.
  - unfold constructor. rewrite G. cbn. tauto.
  - rewrite (constructor_run _ _ _ _ G).
    destruct (appDataDir h namespace) as [e|dir] eqn:D; cbn [fst].
    + apply appDataDir_error in D. subst e. split; discriminate.
    + split; discriminate.
Qed.

(** X9. A successful construction keeps the resolved directory and the key,
    and a node is at the path of the directory afterwards: a directory, made
    by [mkdirSync], when nothing was there; when a node was there already, a
    regular file included, the constructor makes no call but [existsSync]
    and leaves every node as it was. *)
Theorem constructor_ensures_directory (h : host) (namespace : string)
    (encryptionKey : option string) (w w' : world) (this : FileSystemStorageStrategy) :
  constructor h namespace encryptionKey w = (inr this, w') ->
  appDataDir h namespace = inr (this_appDataDir this)
  /\ this_encryptionKey this = encryptionKey
  /\ (fs w !! this_appDataDir this = None -> fs w' !! this_appDataDir this = Some Dir)
  /\ (forall n, fs w !! this_appDataDir this = Some n ->
      w' = called (ExistsSync (this_appDataDir this)) w)
  /\ is_Some (fs w' !! this_appDataDir this).
Proof.
  intros C. pose proof (constructor_passed _ _ _ _ _ _ C) as G.
  rewrite (constructor_run _ _ _ _ G) in C.
  destruct (appDataDir h namespace) as [e|dir]; [discriminate C|].
  injection C as <- <-. cbn [this_appDataDir this_encryptionKey].
  split; [reflexivity|]. split; [reflexivity|].
  destruct (fs w !! dir) as [n|] eqn:D.
  - rewrite bool_decide_eq_true_2 by eauto. cbn [called fs].
    split; [discriminate|]. split; [reflexivity|]. rewrite D. eauto.
  - rewrite bool_decide_eq_false_2 by (intros [? ?]; discriminate). cbn [fs].
    rewrite lookup_insert_eq. split; [reflexivity|]. split; [discriminate|]. eauto.
Qed.

(** X10. Construction is idempotent: in the world a successful construction
    leaves, the same construction returns the same instance, finds the
    directory by [existsSync], and changes no node. *)
Theorem construction_is_idempotent (h : host) (namespace : string)
    (encryptionKey : option string) (w w1 : world) (this : FileSystemStorageStrategy) :
  constructor h namespace encryptionKey w = (inr this, w1) ->
  constructor h namespace encryptionKey w1
  = (inr this, called (ExistsSync (this_appDataDir this)) w1).
Proof.
  intros C. pose proof (constructor_passed _ _ _ _ _ _ C) as G.
  rewrite (constructor_run h namespace encryptionKey w G) in C.
  rewrite (constructor_run h namespace encryptionKey w1 G).
  destruct (appDataDir h namespace) as [e|dir]; [discriminate C|].
  injection C as <- <-. cbn [this_appDataDir].
  f_equal. rewrite bool_decide_eq_true_2; [reflexivity|].
  destruct (fs w !! dir) as [n|] eqn:D.
  - rewrite bool_decide_eq_true_2 by eauto. cbn [called fs]. rewrite D. eauto.
  - rewrite bool_decide_eq_false_2 by (intros [? ?]; discriminate). cbn [fs].
    rewrite lookup_insert_eq. eauto.
Qed.

(** X11. An operation touches the node at the path of its storage key and no
    other, whether it completes or throws: [getCredential] changes no node at
    all, [storeCredential] and [removeCredential] none at another path. *)
Theorem operations_touch_one_path (this : FileSystemStorageStrategy) (x : string) (w : world) :
  fs (snd (getCredential this x w)) = fs w
  /\ (forall iv r q, q <> path_join [this_appDataDir this; x] ->
        fs (snd (storeCredential iv this x r w)) !! q = fs w !! q)
  /\ (forall q, q <> path_join [this_appDataDir this; x] ->
        fs (snd (removeCredential this x w)) !! q = fs w !! q).
Proof.
  set (p := path_join [this_appDataDir this; x]).
  split; [|split].
  - destruct (fs w !! p) as [n|] eqn:E.
    + rewrite (get_present this x w n E). reflexivity.
    + rewrite (get_absent this x w E). reflexivity.
  - intros iv r q Q. rewrite store_run.
    destruct (to_file iv this r) as [e|file]; [reflexivity|].
    unfold writeFile. fold p.
    destruct (fs w !! p) as [[|old]|]; cbn [snd fs called];
      try reflexivity; apply lookup_insert_ne; congruence.
  - intros q Q. destruct (fs w !! p) as [n|] eqn:E.
    + rewrite (remove_present this x w n E). fold p. unfold unlink. cbn [called fs].
      rewrite E. destruct n as [|old]; cbn [snd fs called]; [reflexivity|].
      apply lookup_delete_ne. congruence.
    + rewrite (remove_absent this x w E). reflexivity.
Qed.

(** X12. The last write wins: when two calls of [storeCredential] for the
    same storage key complete, [getCredential] returns the record of the
    second, if that record is valid. *)
Theorem last_write_wins (this : FileSystemStorageStrategy) (x : string)
    (iv1 iv2 : list byte) (r1 r2 : Credential) (w w1 w2 : world) :
  storeCredential iv1 this x r1 w = (inr tt, w1) ->
  storeCredential iv2 this x r2 w1 = (inr tt, w2) ->
  valid_credential r2 ->
  fst (getCredential this x w2) = inr (Some r2).
Proof.
  intros _ S2 V. apply store_some in S2 as (file & T & F).
  rewrite (get_present this x w2 (File file)) by (rewrite F; apply lookup_insert_eq).
  rewrite (of_file_of_to_file _ _ _ _ T V). reflexivity.
Qed.

(** X13. Nothing is kept in memory: a record one instance stored is returned
    by an instance constructed afterwards for the same namespace and key. *)
Theorem stored_record_survives_reconstruction (h : host) (namespace : string)
    (encryptionKey : option string) (this : FileSystemStorageStrategy)
    (x : string) (iv : list byte) (r : Credential) (w w1 w2 : world) :
  constructor h namespace encryptionKey w = (inr this, w1) ->
  storeCredential iv this x r w1 = (inr tt, w2) ->
  valid_credential r ->
  exists w3,
    constructor h namespace encryptionKey w2 = (inr this, w3)
    /\ fst (getCredential this x w3) = inr (Some r).
Proof.
  intros C S V. apply store_some in S as (file & T & F).
  pose proof (constructor_passed _ _ _ _ _ _ C) as G.
  rewrite (constructor_run h namespace encryptionKey w G) in C.
  rewrite (constructor_run h namespace encryptionKey w2 G).
  destruct (appDataDir h namespace) as [e|dir]; [discriminate C|].
  injection C as <- W1. cbn [this_appDataDir] in *.
  assert (is_Some (fs w1 !! dir)) as D1.
  { rewrite <- W1. destruct (fs w !! dir) as [n|] eqn:D.
    - rewrite bool_decide_eq_true_2 by eauto. cbn [called fs]. rewrite D. eauto.
    - rewrite bool_decide_eq_false_2 by (intros [? ?]; discriminate). cbn [fs].
      rewrite lookup_insert_eq. eauto. }
  assert (is_Some (fs w2 !! dir)) as D2.
  { rewrite F. destruct (decide (path_join [dir; x] = dir)) as [->|N].
    - rewrite lookup_insert_eq. eauto.
    - rewrite lookup_insert_ne by exact N. exact D1. }
  rewrite (bool_decide_eq_true_2 _ D2).
  eexists. split; [reflexivity|].
  rewrite (get_present _ x _ (File file))
    by (cbn [called fs this_appDataDir]; rewrite F; apply lookup_insert_eq).
  rewrite (of_file_of_to_file _ _ _ _ T V). reflexivity.
Qed.

(** X14. After a call of [removeCredential] that completes, nothing is at
    the path of the storage key: [getCredential] returns [undefined] and a
    second [removeCredential] completes without a call of [unlink]. *)
Theorem remove_leaves_nothing (this : FileSystemStorageStrategy) (x : string)
    (w w' : world) :
  removeCredential this x w = (inr tt, w') ->
  fs w' !! path_join [this_appDataDir this; x] = None
  /\ getCredential this x w'
     = (inr None, called (ExistsSync (path_join [this_appDataDir this; x])) w')
  /\ removeCredential this x w'
     = (inr tt, called (ExistsSync (path_join [this_appDataDir this; x])) w').
Proof.
  intros R.
  assert (fs w' !! path_join [this_appDataDir this; x] = None) as E.
  { destruct (fs w !! path_join [this_appDataDir this; x]) as [n|] eqn:D.
    - rewrite (remove_present this x w n D) in R. unfold unlink in R.
      cbn [called fs] in R. rewrite D in R.
      destruct n as [|old]; [discriminate R|]. injection R as <-.
      cbn [fs]. apply lookup_delete_eq.
    - rewrite (remove_absent this x w D) in R. injection R as <-. exact D. }
  split; [exact E|]. split; [apply get_absent|apply remove_absent]; exact E.
Qed.

End StorageFurther.

(** ** What a key changes in the file *)

Section KeyedStore.
Context {Credential : Type} `{CredentialModule Credential} `{PathModule}.

Lemma envelope_length (iv : list byte) (r : Credential) (k envelope : string) :
  encryptCredential iv r k = inr envelope ->
  String.length envelope = 33 + 32 * (String.length (stringifyCredential r) / 16 + 1).
Proof.
  intros E. apply encrypt_some in E as (c & C & ->).
  apply create_some in C as [_ L].
  rewrite append_length. cbn [String.length]. rewrite !hex_encode_length, L.
  rewrite cipher_update_final_length, list_ascii_of_string_length. lia.
Qed.

Lemma envelope_longer (iv : list byte) (r : Credential) (k envelope : string) :
  encryptCredential iv r k = inr envelope ->
  2 * String.length (stringifyCredential r) + 35 <= String.length envelope.
Proof.
  intros E. rewrite (envelope_length _ _ _ _ E).
  pose proof (Nat.div_mod_eq (String.length (stringifyCredential r)) 16).
  pose proof (Nat.mod_upper_bound (String.length (stringifyCredential r)) 16 ltac:(lia)).
  lia.
Qed.

(** X15. An envelope is more than twice as long as the serialization it
    holds, so it never is that serialization. *)
Theorem envelope_is_not_the_serialization (iv : list byte) (r : Credential)
    (k envelope : string) :
  encryptCredential iv r k = inr envelope ->
  2 * String.length (stringifyCredential r) + 35 <= String.length envelope
  /\ envelope <> stringifyCredential r.
Proof.
  intros E. pose proof (envelope_longer _ _ _ _ E) as L.
  split; [exact L|]. intros ->. lia.
Qed.

(** X16. With a key configured, a call of [storeCredential] that completes
    leaves at the path of the storage key a file whose whole content is the
    envelope [encryptCredential] made of the record, and not the
    serialization of the record. *)
Theorem keyed_store_writes_envelope (this : FileSystemStorageStrategy) (x : string)
    (iv : list byte) (r : Credential) (w w' : world) :
  truthy (this_encryptionKey this) = true ->
  storeCredential iv this x r w = (inr tt, w') ->
  exists envelope,
    encryptCredential iv r (default EmptyString (this_encryptionKey this)) = inr envelope
    /\ fs w' !! path_join [this_appDataDir this; x] = Some (File envelope)
    /\ envelope <> stringifyCredential r.
Proof.
  intros K S. apply store_some in S as (file & T & F).
  unfold to_file in T. rewrite K in T.
  exists file. split; [exact T|]. split.
  - rewrite F. apply lookup_insert_eq.
  - intros ->. pose proof (envelope_longer _ _ _ _ T). lia.
Qed.

End KeyedStore.

(** ** The further properties on the values of the tests *)

(** X2, on the envelope of the tests. *)
Lemma envelope_format_witness :
  encryptCredential testIv testCredential testKey = inr testEnvelope
  /\ exists crypt,
       testEnvelope = Hex.encode testIv +:+ String colon (Hex.encode crypt)
       /\ split colon testEnvelope = [Hex.encode testIv; Hex.encode crypt]
       /\ length testIv = 16
       /\ length crypt = 16 * (String.length (stringifyCredential testCredential) / 16 + 1)
       /\ String.length testEnvelope
          = 33 + 32 * (String.length (stringifyCredential testCredential) / 16 + 1)
       /\ all_chars envelope_char testEnvelope = true.
Proof.
  assert (encryptCredential testIv testCredential testKey = inr testEnvelope) as E
    by (vm_compute; reflexivity).
  split; [exact E|].
  exact (envelope_format testIv testCredential testKey testEnvelope E).
Defined.

(** X3, on an IV of one byte with the key of the tests, and on the IV and the
    key of the tests with a ciphertext of two bytes. *)
Lemma decrypt_rejects_wrong_sizes_witness :
  (free_of colon "00" = true /\ length (Hex.decode "00") <> 16
   /\ String.length testKey = 32
   /\ decryptCredential (Credential := IdToken) ("00" +:+ String colon "abcd") testKey
      = inl (DecryptionFailure InvalidIv))
  /\ (free_of colon (Hex.encode testIv) = true
      /\ length (Hex.decode (Hex.encode testIv)) = 16 /\ String.length testKey = 32
      /\ (length (Hex.decode "abcd") mod 16 <> 0 \/ Hex.decode "abcd" = [])
      /\ decryptCredential (Credential := IdToken)
           (Hex.encode testIv +:+ String colon "abcd") testKey
         = inl (DecryptionFailure WrongFinalBlockLength)).
Proof.
  assert (free_of colon "00" = true) as F1 by reflexivity.
  assert (length (Hex.decode "00") <> 16) as L1 by (vm_compute; lia).
  assert (free_of colon (Hex.encode testIv) = true) as F2 by reflexivity.
  assert (length (Hex.decode (Hex.encode testIv)) = 16) as L2 by reflexivity.
  assert (String.length testKey = 32) as K by reflexivity.
  assert (length (Hex.decode "abcd") mod 16 <> 0 \/ Hex.decode "abcd" = []) as W
    by (left; vm_compute; lia).
  split.
  - repeat (split; [assumption|]).
    exact (proj1 (proj2 (decrypt_rejects_wrong_sizes (Credential := IdToken)
                           "00" "abcd" testKey F1)) L1 K).
  - repeat (split; [assumption|]).
    exact (proj2 (proj2 (proj2 (decrypt_rejects_wrong_sizes (Credential := IdToken)
                                  (Hex.encode testIv) "abcd" testKey F2))) L2 K W).
Defined.

(** X4, on the envelope of the tests followed by a line end. *)
Lemma trailing_text_is_ignored_witness :
  encryptCredential testIv testCredential testKey = inr testEnvelope
  /\ valid_credential testCredential /\ Hex.decode lineEnd = []
  /\ decryptCredential (testEnvelope +:+ lineEnd) testKey = inr testCredential.
Proof.
  assert (encryptCredential testIv testCredential testKey = inr testEnvelope) as E
    by (vm_compute; reflexivity).
  assert (valid_credential testCredential) as V by (vm_compute; reflexivity).
  assert (Hex.decode lineEnd = []) as J by reflexivity.
  repeat (split; [assumption|]).
  exact (trailing_text_is_ignored testIv testCredential testKey testEnvelope lineEnd E V J).
Defined.

(** X6, on the envelope of the tests: two bits of byte 7 of the IV turn the
    identifier [1] of the record into [2], and the record is returned as if
    it had been stored so. *)
Lemma tampered_iv_flips_plaintext_witness :
  encryptCredential testIv testCredential testKey = inr testEnvelope
  /\ 7 < 16 /\ 16 <= String.length (stringifyCredential testCredential)
  /\ forallb seven_bit
       (flip 7 mask3 (list_ascii_of_string (stringifyCredential testCredential))) = true
  /\ parse (string_of_list_ascii
              (flip 7 mask3 (list_ascii_of_string (stringifyCredential testCredential))))
     = inr otherCredential
  /\ decryptCredential (tamper_iv 7 mask3 testEnvelope) testKey
     = parse (string_of_list_ascii
                (flip 7 mask3 (list_ascii_of_string (stringifyCredential testCredential)))).
Proof.
  assert (encryptCredential testIv testCredential testKey = inr testEnvelope) as E
    by (vm_compute; reflexivity).
  assert (7 < 16) as J by lia.
  assert (16 <= String.length (stringifyCredential testCredential)) as S
    by (vm_compute; lia).
  assert (forallb seven_bit
            (flip 7 mask3 (list_ascii_of_string (stringifyCredential testCredential))) = true)
    as A by (vm_compute; reflexivity).
  assert (parse (string_of_list_ascii
                   (flip 7 mask3 (list_ascii_of_string (stringifyCredential testCredential))))
          = inr otherCredential) as P by (vm_compute; reflexivity).
  repeat (split; [assumption|]).
  exact (tampered_iv_flips_plaintext testIv testCredential testKey testEnvelope 7 mask3
           E J S A).
Defined.

(** X9, on a world with a regular file at the path of the directory: the
    construction completes and the file stays. *)
Lemma constructor_ensures_directory_witness :
  constructor testHost "namespace" (Some testKey) occupiedWorld
  = (inr keyedStrategy, called (ExistsSync "/var/namespace") occupiedWorld)
  /\ fs occupiedWorld !! "/var/namespace" = Some (File "not a directory")
  /\ appDataDir testHost "namespace" = inr (this_appDataDir keyedStrategy)
  /\ this_encryptionKey keyedStrategy = Some testKey
  /\ (fs occupiedWorld !! this_appDataDir keyedStrategy = None ->
      fs (called (ExistsSync "/var/namespace") occupiedWorld)
        !! this_appDataDir keyedStrategy = Some Dir)
  /\ (forall n, fs occupiedWorld !! this_appDataDir keyedStrategy = Some n ->
      called (ExistsSync "/var/namespace") occupiedWorld
      = called (ExistsSync (this_appDataDir keyedStrategy)) occupiedWorld)
  /\ is_Some (fs (called (ExistsSync "/var/namespace") occupiedWorld)
                !! this_appDataDir keyedStrategy).
Proof.
  assert (constructor testHost "namespace" (Some testKey) occupiedWorld
          = (inr keyedStrategy, called (ExistsSync "/var/namespace") occupiedWorld)) as C
    by (vm_compute; reflexivity).
  split; [exact C|]. split; [vm_compute; reflexivity|].
  exact (constructor_ensures_directory testHost "namespace" (Some testKey) occupiedWorld
           (called (ExistsSync "/var/namespace") occupiedWorld) keyedStrategy C).
Defined.

(** X10, on the construction of the tests. *)
Lemma construction_is_idempotent_witness :
  constructor testHost "namespace" (Some testKey) emptyWorld = (inr keyedStrategy, namespaceWorld)
  /\ constructor testHost "namespace" (Some testKey) namespaceWorld
     = (inr keyedStrategy, called (ExistsSync (this_appDataDir keyedStrategy)) namespaceWorld).
Proof.
  assert (constructor testHost "namespace" (Some testKey) emptyWorld
          = (inr keyedStrategy, namespaceWorld)) as C by (vm_compute; reflexivity).
  split; [exact C|].
  exact (construction_is_idempotent testHost "namespace" (Some testKey) emptyWorld
           namespaceWorld keyedStrategy C).
Defined.

(** X12, on the keyed instance of the tests and two records. *)
Lemma last_write_wins_witness :
  storeCredential testIv keyedStrategy "credential.json" otherCredential namespaceWorld
  = (inr tt, storedOnceWorld)
  /\ storeCredential (repeat zero_byte 16) keyedStrategy "credential.json" testCredential
       storedOnceWorld
     = (inr tt, storedTwiceWorld)
  /\ valid_credential testCredential
  /\ fst (getCredential keyedStrategy "credential.json" storedTwiceWorld)
     = inr (Some testCredential).
Proof.
  assert (storeCredential testIv keyedStrategy "credential.json" otherCredential namespaceWorld
          = (inr tt, storedOnceWorld)) as S1 by (vm_compute; reflexivity).
  assert (storeCredential (repeat zero_byte 16) keyedStrategy "credential.json" testCredential
            storedOnceWorld
          = (inr tt, storedTwiceWorld)) as S2 by (vm_compute; reflexivity).
  assert (valid_credential testCredential) as V by (vm_compute; reflexivity).
  repeat (split; [assumption|]).
  exact (last_write_wins keyedStrategy "credential.json" testIv (repeat zero_byte 16)
           otherCredential testCredential namespaceWorld storedOnceWorld storedTwiceWorld
           S1 S2 V).
Defined.

(** X13, on the keyed instance of the tests. *)
Lemma stored_record_survives_reconstruction_witness :
  constructor testHost "namespace" (Some testKey) emptyWorld = (inr keyedStrategy, namespaceWorld)
  /\ storeCredential testIv keyedStrategy "credential.json" otherCredential namespaceWorld
     = (inr tt, storedOnceWorld)
  /\ valid_credential otherCredential
  /\ exists w3,
       constructor testHost "namespace" (Some testKey) storedOnceWorld = (inr keyedStrategy, w3)
       /\ fst (getCredential keyedStrategy "credential.json" w3) = inr (Some otherCredential).
Proof.
  assert (constructor testHost "namespace" (Some testKey) emptyWorld
          = (inr keyedStrategy, namespaceWorld)) as C by (vm_compute; reflexivity).
  assert (storeCredential testIv keyedStrategy "credential.json" otherCredential namespaceWorld
          = (inr tt, storedOnceWorld)) as S by (vm_compute; reflexivity).
  assert (valid_credential otherCredential) as V by (vm_compute; reflexivity).
  repeat (split; [assumption|]).
  exact (stored_record_survives_reconstruction testHost "namespace" (Some testKey)
           keyedStrategy "credential.json" testIv otherCredential emptyWorld namespaceWorld
           storedOnceWorld C S V).
Defined.

(** X14, on the world with the stored record. *)
Lemma remove_leaves_nothing_witness :
  removeCredential keyedStrategy "credential.json" storedOnceWorld
  = (inr tt, snd (removeCredential keyedStrategy "credential.json" storedOnceWorld))
  /\ fs (snd (removeCredential keyedStrategy "credential.json" storedOnceWorld))
       !! path_join [this_appDataDir keyedStrategy; "credential.json"] = None
  /\ getCredential (Credential := IdToken) keyedStrategy "credential.json"
       (snd (removeCredential keyedStrategy "credential.json" storedOnceWorld))
     = (inr None,
        called (ExistsSync (path_join [this_appDataDir keyedStrategy; "credential.json"]))
          (snd (removeCredential keyedStrategy "credential.json" storedOnceWorld)))
  /\ removeCredential keyedStrategy "credential.json"
       (snd (removeCredential keyedStrategy "credential.json" storedOnceWorld))
     = (inr tt,
        called (ExistsSync (path_join [this_appDataDir keyedStrategy; "credential.json"]))
          (snd (removeCredential keyedStrategy "credential.json" storedOnceWorld))).
Proof.
  assert (removeCredential keyedStrategy "credential.json" storedOnceWorld
          = (inr tt, snd (removeCredential keyedStrategy "credential.json" storedOnceWorld)))
    as R by (vm_compute; reflexivity).
  split; [exact R|].
  exact (remove_leaves_nothing (Credential := IdToken) keyedStrategy "credential.json"
           storedOnceWorld _ R).
Defined.

(** X15, on the envelope of the tests. *)
Lemma envelope_is_not_the_serialization_witness :
  encryptCredential testIv testCredential testKey = inr testEnvelope
  /\ 2 * String.length (stringifyCredential testCredential) + 35 <= String.length testEnvelope
  /\ testEnvelope <> stringifyCredential testCredential.
Proof.
  assert (encryptCredential testIv testCredential testKey = inr testEnvelope) as E
    by (vm_compute; reflexivity).
  split; [exact E|].
  exact (envelope_is_not_the_serialization testIv testCredential testKey testEnvelope E).
Defined.

(** X16, on the keyed instance of the tests. *)
Lemma keyed_store_writes_envelope_witness :
  truthy (this_encryptionKey keyedStrategy) = true
  /\ storeCredential testIv keyedStrategy "credential.json" otherCredential namespaceWorld
     = (inr tt, storedOnceWorld)
  /\ exists envelope,
       encryptCredential testIv otherCredential
         (default EmptyString (this_encryptionKey keyedStrategy)) = inr envelope
       /\ fs storedOnceWorld !! path_join [this_appDataDir keyedStrategy; "credential.json"]
          = Some (File envelope)
       /\ envelope <> stringifyCredential otherCredential.
Proof.
  assert (truthy (this_encryptionKey keyedStrategy) = true) as K by reflexivity.
  assert (storeCredential testIv keyedStrategy "credential.json" otherCredential namespaceWorld
          = (inr tt, storedOnceWorld)) as S by (vm_compute; reflexivity).
  repeat (split; [assumption|]).
  exact (keyed_store_writes_envelope keyedStrategy "credential.json" testIv otherCredential
           namespaceWorld storedOnceWorld K S).
Defined.
